(** * GetHooks: the generic list store of list.c

    A shallow embedding of [create_list_store], [add_list_item] and
    [free_list_store] over an explicit heap, and the properties of the
    list store stated against it. *)

From stdpp Require Import gmap list fin_maps fin_sets strings.
From Stdlib Require Import ZArith Lia.

#[local] Set Warnings "-clear-no-such-hyp".
Local Open Scope Z_scope.

(** ** Memory model *)

(** An address returned by the allocator, or the address of a caller's
    variable.  A C pointer is [option loc]: [None] is NULL. *)
Definition loc := positive.
Definition ptr := option loc.

(** A wide string: the WCHAR code units before the terminating NUL. *)
Definition wstring := list Z.

(** Modelled from the spec: the [list_type] enumeration of list.h, which is
    not part of the available sources.  The enumerators are the ones named by
    list.c; a zeroed store has kind [LIST_INVALID_TYPE] (the test
    [!store->type] of [add_list_item] and the label printed by
    [print_list_store]). *)
Inductive list_type :=
  | LIST_INVALID_TYPE
  | LIST_INCLUDE_DESK
  | LIST_INCLUDE_HOOK
  | LIST_INCLUDE_PROG
  | LIST_EXCLUDE_HOOK
  | LIST_EXCLUDE_PROG.

#[global] Instance list_type_eq_dec : EqDecision list_type.
Proof. solve_decision. Defined.

(** Modelled from the spec: [struct list_item] of list.h, with the fields
    list.c reads and writes, [id], [name] and [next]. *)
Record list_item := mk_item {
  item_id : Z;
  item_name : ptr;     (* WCHAR *name *)
  item_next : ptr      (* struct list_item *next *)
}.

(** Modelled from the spec: [struct list] of list.h, with the fields
    list.c reads and writes, [type], [head] and [tail]. *)
Record list_store := mk_store {
  store_type : list_type;
  store_head : ptr;
  store_tail : ptr
}.

(** What an address can hold: a caller's [struct list *] variable (the
    object behind the [struct list **] arguments), a store, an item, or a
    string buffer. *)
Inductive cell :=
  | Handle (p : ptr)
  | Store (s : list_store)
  | Item (i : list_item)
  | WStr (w : wstring).

(** The memory: the heap, and the trace of the addresses passed to [free],
    oldest first. *)
Record mem := mk_mem {
  heap : gmap loc cell;
  freed : list loc
}.

(** How a call ends: it returns, the process is terminated ([FAIL_IF],
    [exit]), it touches memory it must not (undefined behaviour in C), or a
    loop does not end. *)
Inductive result (A : Type) :=
  | Done (a : A) (m : mem)
  | Fatal
  | Fault
  | Diverge.
Arguments Done {A} a m.
Arguments Fatal {A}.
Arguments Fault {A}.
Arguments Diverge {A}.

Definition M (A : Type) := mem -> result A.

Definition ret {A} (a : A) : M A := fun m => Done a m.

Definition bind {A B} (c : M A) (k : A -> M B) : M B :=
  fun m => match c m with
           | Done a m' => k a m'
           | Fatal => Fatal
           | Fault => Fault
           | Diverge => Diverge
           end.

(** The notations [x ← c; k] and [c;; k] of stdpp's monads. *)
#[global] Instance M_ret : MRet M := @ret.
#[global] Instance M_bind : MBind M := fun A B k c => bind c k.

(** Modelled from the spec: the macro [FAIL_IF( cond )] of util.h, a fatal
    diagnostic followed by the termination of the process when the condition
    holds. *)
Definition FAIL_IF (cond : bool) : M unit :=
  fun m => if cond then Fatal else Done tt m.

Definition fault {A} : M A := fun _ => Fault.
Definition diverge {A} : M A := fun _ => Diverge.

(** Reading memory through a pointer of a given type. *)
Definition load_handle (p : loc) : M ptr :=
  fun m => match heap m !! p with
           | Some (Handle q) => Done q m
           | _ => Fault
           end.

Definition load_store (p : loc) : M list_store :=
  fun m => match heap m !! p with
           | Some (Store s) => Done s m
           | _ => Fault
           end.

Definition load_item (p : loc) : M list_item :=
  fun m => match heap m !! p with
           | Some (Item i) => Done i m
           | _ => Fault
           end.

Definition load_wstr (p : loc) : M wstring :=
  fun m => match heap m !! p with
           | Some (WStr w) => Done w m
           | _ => Fault
           end.

(** Writing an object that is already allocated. *)
Definition write (p : loc) (c : cell) : M unit :=
  fun m => match heap m !! p with
           | Some _ => Done tt (mk_mem (<[p := c]> (heap m)) (freed m))
           | None => Fault
           end.

(** Modelled from the spec: the allocator behind [must_calloc] and
    [must_wcsdup] of util.h hands out an address that is not in use and never
    returns NULL (it terminates the process when memory is exhausted; the heap
    of the model is unbounded). *)
Definition alloc (c : cell) : M loc :=
  fun m => let a := fresh (dom (heap m)) in
           Done a (mk_mem (<[a := c]> (heap m)) (freed m)).

(** [must_calloc( 1, sizeof( struct list ) )] *)
Definition must_calloc_store : M loc :=
  alloc (Store (mk_store LIST_INVALID_TYPE None None)).

(** [must_calloc( 1, sizeof( struct list_item ) )] *)
Definition must_calloc_item : M loc :=
  alloc (Item (mk_item 0 None None)).

(** [must_wcsdup( s )] *)
Definition must_wcsdup (s : wstring) : M loc := alloc (WStr s).

(** [free( p )]: nothing for NULL, otherwise the object is released and the
    call recorded. *)
Definition free (p : ptr) : M unit :=
  fun m => match p with
           | None => Done tt m
           | Some a =>
               match heap m !! a with
               | Some _ => Done tt (mk_mem (delete a (heap m)) (freed m ++ [a]))
               | None => Fault
               end
           end.

(** ** The C runtime's [_wcsicmp] *)

(** [towlower] in the C locale. *)
Definition towlower (c : Z) : Z :=
  if (65 <=? c) && (c <=? 90) then c + 32 else c.

(** Compares the lower-cased strings; zero when they are equal, otherwise
    the sign of the first difference. *)
Fixpoint _wcsicmp (a b : wstring) : Z :=
  match a, b with
  | [], [] => 0
  | [], _ :: _ => -1
  | _ :: _, [] => 1
  | x :: a', y :: b' =>
      if towlower x =? towlower y then _wcsicmp a' b'
      else if towlower x <? towlower y then -1 else 1
  end.

(** ** list.c *)

(** create_list_store(): create a list store and its descendants or die. *)
Definition create_list_store (out : ptr) : M unit :=
  match out with
  | None => FAIL_IF true                          (* FAIL_IF( !out ) *)
  | Some o =>
      p ← load_handle o;
      FAIL_IF (bool_decide (is_Some p));;         (* FAIL_IF( *out ) *)
      s ← must_calloc_store;
      write o (Handle (Some s))
  end.

(** A walk over a chain without a repeated address sees at most as many
    items as there are objects in memory; a longer walk is in a cycle and
    never ends.  The loops over the items are run with that bound. *)
Definition bounded_walk {A} (loop : nat -> M A) : M A :=
  fun m => loop (S (size (heap m))) m.

(** The loops [for( item = store->head; item; item = item->next )] that
    leave by [goto existing_item] at the first item for which [matches]
    holds.  The result is that item, or NULL after the last item. *)
Fixpoint find_item (fuel : nat) (matches : list_item -> M bool) (item : ptr)
  : M ptr :=
  match fuel with
  | O => diverge
  | S fuel' =>
      match item with
      | None => ret None
      | Some a =>
          it ← load_item a;
          b ← matches it;
          if b : bool then ret (Some a) else find_item fuel' matches it.(item_next)
      end
  end.

Definition scan (matches : list_item -> M bool) (start : ptr) : M ptr :=
  bounded_walk (fun fuel => find_item fuel matches start).

(** [id == item->id] *)
Definition hook_id_in_list (id : Z) (item : list_item) : M bool :=
  ret (id =? item.(item_id)).

(** [item->name && !_wcsicmp( item->name, name )] *)
Definition name_in_list (nm : wstring) (item : list_item) : M bool :=
  match item.(item_name) with
  | None => ret false
  | Some a => w ← load_wstr a; ret (_wcsicmp w nm =? 0)
  end.

(** [!item->name && id == item->id] *)
Definition pid_in_list (id : Z) (item : list_item) : M bool :=
  ret (negb (bool_decide (is_Some item.(item_name))) && (id =? item.(item_id))).

(** The end of [new_item]: the item becomes the tail of the list, and
    the head too when the list is empty. *)
Definition append_item (store item : loc) : M unit :=
  st ← load_store store;
  match st.(store_head) with
  | None =>
      write store (Store (mk_store st.(store_type) (Some item) (Some item)))
  | Some _ =>
      match st.(store_tail) with
      | None => fault
      | Some t =>
          (* store->tail->next = item; store->tail = item; *)
          last ← load_item t;
          write t (Item (mk_item last.(item_id) last.(item_name) (Some item)));;
          write store
            (Store (mk_store st.(store_type) st.(store_head) (Some item)))
      end
  end.

(** The label [new_item]: create a new item and add it to the list. *)
Definition new_item (store : loc) (id : Z) (name : option wstring)
    (hookname : ptr) : M ptr :=
  item ← must_calloc_item;
  nm ← match hookname with
       | Some h => ret (Some h)                  (* item->name = hookname *)
       | None =>
           match name with
           | Some w => a ← must_wcsdup w; ret (Some a)
           | None => ret (None : ptr)
           end
       end;
  (* item->name = nm; item->id = id; item->next = NULL; *)
  write item (Item (mk_item id nm None));;
  append_item store item;;
  ret (Some item).

(** The label [existing_item]: free resources and return the existing item,
    if any. *)
Definition existing_item (hookname : ptr) (item : ptr) : M ptr :=
  free hookname;;
  ret item.

(** After a scan: [goto existing_item] from inside the loop, [goto new_item]
    after it. *)
Definition found_or_new (store : loc) (id : Z) (name : option wstring)
    (hookname : ptr) (item : ptr) : M ptr :=
  match item with
  | Some _ => existing_item hookname item
  | None => new_item store id name hookname
  end.

Section AddListItem.

(** Modelled from the spec: the hook directory consumed by
    [add_list_item], the id of a hook name and the name of a hook id, [None]
    when the lookup fails.  On success [get_hook_name_from_id] hands out a
    new copy of the name, which the caller owns; on failure it leaves
    [hookname] NULL. *)
Variable get_hook_id_from_name : wstring -> option Z.
Variable get_hook_name_from_id : Z -> option wstring.

(** add_list_item(): append an item to a list store's linked list. *)
Definition add_list_item (store : ptr) (id : Z) (name : option wstring)
  : M ptr :=
  match store with
  | None => FAIL_IF true;; ret (None : ptr)             (* FAIL_IF( !store ) *)
  | Some s =>
      st ← load_store s;
      (* FAIL_IF( !store->type ) *)
      FAIL_IF (bool_decide (st.(store_type) = LIST_INVALID_TYPE));;
      match st.(store_type) with
      | LIST_INCLUDE_HOOK | LIST_EXCLUDE_HOOK =>
          match name with
          | Some nm =>
              match get_hook_id_from_name nm with
              | None => existing_item None None
              | Some id' =>
                  item ← scan (hook_id_in_list id') st.(store_head);
                  found_or_new s id' name None item
              end
          | None =>
              hookname ← match get_hook_name_from_id id with
                         | Some w => a ← must_wcsdup w; ret (Some a)
                         | None => ret (None : ptr)
                         end;
              item ← scan (hook_id_in_list id) st.(store_head);
              found_or_new s id name hookname item
          end
      | LIST_INCLUDE_PROG | LIST_EXCLUDE_PROG =>
          item ← match name with
                 | Some nm => scan (name_in_list nm) st.(store_head)
                 | None => scan (pid_in_list id) st.(store_head)
                 end;
          found_or_new s id name None item
      | LIST_INCLUDE_DESK =>
          FAIL_IF (bool_decide (name = None));;  (* FAIL_IF( !name ) *)
          FAIL_IF (negb (id =? 0));;             (* FAIL_IF( id ) *)
          match name with
          | Some nm =>
              item ← scan (name_in_list nm) st.(store_head);
              found_or_new s id name None item
          | None => fault
          end
      | _ =>
          (* else: MSG_FATAL( "Unknown list type." ); exit( 1 ); *)
          FAIL_IF true;; ret (None : ptr)
      end
  end.

End AddListItem.
Arguments add_list_item : simpl never.

(** The loop of [free_list_store]: release each item's name, then the
    item, and go on with the item's successor read before the release. *)
Fixpoint free_items (fuel : nat) (current : ptr) : M unit :=
  match fuel with
  | O => diverge
  | S fuel' =>
      match current with
      | None => ret tt
      | Some a =>
          it ← load_item a;
          free it.(item_name);;
          free (Some a);;
          free_items fuel' it.(item_next)
      end
  end.

(** free_list_store(): free a list store and all its descendants. *)
Definition free_list_store (in_ : ptr) : M unit :=
  match in_ with
  | None => ret tt                                (* !in *)
  | Some i =>
      p ← load_handle i;
      match p with
      | None => ret tt                            (* !*in *)
      | Some s =>
          st ← load_store s;
          bounded_walk (fun fuel => free_items fuel st.(store_head));;
          free (Some s);;
          write i (Handle None)
      end
  end.

(** The traversal of [print_list_store]: the items from [head] on, in the
    order in which the loop visits them. *)
Fixpoint walk_items (fuel : nat) (item : ptr) : M (list (loc * list_item)) :=
  match fuel with
  | O => diverge
  | S fuel' =>
      match item with
      | None => ret []
      | Some a =>
          it ← load_item a;
          rest ← walk_items fuel' it.(item_next);
          ret ((a, it) :: rest)
      end
  end.

Definition traverse (store : loc) : M (list (loc * list_item)) :=
  st ← load_store store;
  bounded_walk (fun fuel => walk_items fuel st.(store_head)).

(** What [print_list_item] writes.  Modelled from the spec: the macros
    [PRINT_SEP_BEGIN] and [PRINT_SEP_END] of util.h bracket the output of an
    object with separators that carry its name. *)
Inductive output :=
  | PRINT_SEP_BEGIN (objname : string)
  | PRINT_SEP_END (objname : string)
  | printf_item_name (w : wstring)       (* "item->name: %ls\n" *)
  | printf_item_id (id : Z).             (* "item->id: %d\n" *)

(** print_list_item(): print an item from a list store's linked list.  The
    result is what is written, in order. *)
Definition print_list_item (item : ptr) : M (list output) :=
  match item with
  | None => ret []                                 (* if( !item ) return; *)
  | Some a =>
      it ← load_item a;
      line ← match it.(item_name) with
             | Some p => w ← load_wstr p; ret (printf_item_name w)
             | None => ret (printf_item_id it.(item_id))
             end;
      ret [PRINT_SEP_BEGIN "Generic List Item"; line;
           PRINT_SEP_END "Generic List Item"]
  end.

(** ** The abstract view of a store *)

(** An item of the sequence: its address, its id, and the address and the
    text of its name if it has one. *)
Record node := mk_node {
  n_loc : loc;
  n_id : Z;
  n_name : option (loc * wstring)
}.

(** The [struct list_item] of a node whose successor is [nx]. *)
Definition node_item (n : node) (nx : ptr) : list_item :=
  mk_item (n_id n) (fst <$> n_name n) nx.

Definition name_ok (h : gmap loc cell) (n : node) : Prop :=
  match n_name n with
  | Some (a, w) => h !! a = Some (WStr w)
  | None => True
  end.

(** The chain of items from [p] is exactly [ns], and ends in NULL. *)
Fixpoint chain (h : gmap loc cell) (p : ptr) (ns : list node) : Prop :=
  match ns with
  | [] => p = None
  | n :: ns' =>
      p = Some (n_loc n) ∧
      ∃ nx, h !! n_loc n = Some (Item (node_item n nx)) ∧
            name_ok h n ∧ chain h nx ns'
  end.

(** The objects a node owns, name first: the order in which
    [free_list_store] releases them. *)
Definition node_cells (n : node) : list loc :=
  match n_name n with
  | Some (a, _) => [a; n_loc n]
  | None => [n_loc n]
  end.

Definition cells (ns : list node) : list loc := ns ≫= node_cells.
Arguments cells : simpl never.

(** The store at [s] has kind [ty] and holds the sequence [ns]: [head]
    starts the chain, [tail] is its last item, and no object is shared. *)
Definition list_inv (h : gmap loc cell) (s : loc) (ty : list_type)
    (ns : list node) : Prop :=
  ∃ st, h !! s = Some (Store st) ∧
        store_type st = ty ∧
        chain h (store_head st) ns ∧
        store_tail st = last (n_loc <$> ns) ∧
        NoDup (cells ns).

(** The duplicate tests, on nodes. *)
Definition hook_match (id : Z) (n : node) : bool := id =? n_id n.

Definition name_match (nm : wstring) (n : node) : bool :=
  match n_name n with
  | Some (_, w) => _wcsicmp w nm =? 0
  | None => false
  end.

Definition pid_match (id : Z) (n : node) : bool :=
  negb (bool_decide (is_Some (n_name n))) && (id =? n_id n).

(** Equal up to letter case. *)
Definition eq_nocase (a b : wstring) : Prop := towlower <$> a = towlower <$> b.

Definition is_hook (ty : list_type) : Prop :=
  ty = LIST_INCLUDE_HOOK ∨ ty = LIST_EXCLUDE_HOOK.

Definition is_prog (ty : list_type) : Prop :=
  ty = LIST_INCLUDE_PROG ∨ ty = LIST_EXCLUDE_PROG.

(** The node that [new_item] creates in heap [h]: the item is allocated
    first, then the copy of [name] unless [hookname] (with its text) is
    handed over. *)
Definition new_node (h : gmap loc cell) (id : Z) (name : option wstring)
    (hookname : option (loc * wstring)) : node :=
  let a := fresh (dom h) in
  mk_node a id
    match hookname with
    | Some kw => Some kw
    | None =>
        match name with
        | Some w => Some (fresh (dom (<[a := Item (mk_item 0 None None)]> h)), w)
        | None => None
        end
    end.


(** What one call of [add_list_item] does to the sequence of a store. *)
Inductive outcome :=
  | OFatal                                   (* the process is terminated *)
  | ONoItem                                  (* NULL, nothing changes *)
  | OExisting (n : node) (discard : bool)    (* an item of the store; the
                                                name just resolved is dropped *)
  | ONew (id : Z) (nm : option wstring).     (* a new last item *)

Definition lookup_or_new (f : node → bool) (ns : list node) (id : Z)
    (nm : option wstring) (discard : bool) : outcome :=
  match find f ns with
  | Some n => OExisting n discard
  | None => ONew id nm
  end.

Section Outcome.
Variable get_hook_id_from_name : wstring → option Z.
Variable get_hook_name_from_id : Z → option wstring.

Definition add_outcome (ty : list_type) (ns : list node) (id : Z)
    (name : option wstring) : outcome :=
  match ty with
  | LIST_INVALID_TYPE => OFatal
  | LIST_INCLUDE_HOOK | LIST_EXCLUDE_HOOK =>
      match name with
      | Some nm =>
          match get_hook_id_from_name nm with
          | None => ONoItem
          | Some id' => lookup_or_new (hook_match id') ns id' name false
          end
      | None =>
          lookup_or_new (hook_match id) ns id (get_hook_name_from_id id)
            (bool_decide (is_Some (get_hook_name_from_id id)))
      end
  | LIST_INCLUDE_PROG | LIST_EXCLUDE_PROG =>
      match name with
      | Some nm => lookup_or_new (name_match nm) ns id name false
      | None => lookup_or_new (pid_match id) ns id None false
      end
  | LIST_INCLUDE_DESK =>
      match name with
      | None => OFatal
      | Some nm =>
          if id =? 0 then lookup_or_new (name_match nm) ns id name false
          else OFatal
      end
  end.
End Outcome.

(** The call returned the item [n] of the store and left the heap as it
    was; with [discard], the buffer it had allocated for the resolved name
    was released again. *)
Definition returns_existing (m : mem) (n : node) (discard : bool)
    (r : result ptr) : Prop :=
  r = Done (Some (n_loc n))
        (mk_mem (heap m)
           (freed m ++ if discard then [fresh (dom (heap m))] else [])).

(** The call returned a new item with id [id] and a name of text [nm], made
    of objects that were not allocated before, and appended it to the sequence
    [ns] of the store [s]; of the objects allocated before, only the store and
    the former last item were written. *)
Definition appends_new (m : mem) (s : loc) (ty : list_type) (ns : list node)
    (id : Z) (nm : option wstring) (r : result ptr) : Prop :=
  ∃ n h', r = Done (Some (n_loc n)) (mk_mem h' (freed m)) ∧
          n_id n = id ∧ snd <$> n_name n = nm ∧
          (∀ c, c ∈ node_cells n → heap m !! c = None) ∧
          list_inv h' s ty (ns ++ [n]) ∧
          (∀ c, is_Some (heap m !! c) → c ≠ s →
                Some c ≠ last (n_loc <$> ns) → h' !! c = heap m !! c).

Definition add_post (m : mem) (s : loc) (ty : list_type) (ns : list node)
    (o : outcome) (r : result ptr) : Prop :=
  match o with
  | OFatal => r = Fatal
  | ONoItem => r = Done None m
  | OExisting n discard => returns_existing m n discard r
  | ONew id nm => appends_new m s ty ns id nm r
  end.


(** The id under which a hook store looks an insertion up. *)
Definition hook_id_of (get_hook_id_from_name : wstring → option Z) (id : Z)
    (name : option wstring) : option Z :=
  match name with
  | Some nm => get_hook_id_from_name nm
  | None => Some id
  end.


(** The items of a sequence as the traversal reads them: each with the
    address of its successor. *)
Fixpoint node_items (ns : list node) : list (loc * list_item) :=
  match ns with
  | [] => []
  | n :: ns' => (n_loc n, node_item n (n_loc <$> head ns')) :: node_items ns'
  end.


(** The store that [create_list_store] makes for the handle [out] of [m] has
    kind [k], and no head and no tail. *)
Definition creates_with_kind (k : list_type) (m : mem) (out : loc) : Prop :=
  ∃ m' s st, create_list_store (Some out) m = Done tt m' ∧
             heap m' !! out = Some (Handle (Some s)) ∧
             heap m' !! s = Some (Store st) ∧
             store_type st = k ∧ store_head st = None ∧ store_tail st = None.

(** A memory with one handle that holds NULL. *)
Definition empty_handle_mem : mem := mk_mem {[ 1%positive := Handle None ]} [].


(** Two items that the duplicate test of a store of kind [ty] does not
    tell apart: the same id in a hook store; names equal up to letter case,
    or no names and the same id, in a program store; names equal up to letter
    case in a desktop store. *)
Definition duplicates (ty : list_type) (x y : node) : Prop :=
  match ty with
  | LIST_INCLUDE_HOOK | LIST_EXCLUDE_HOOK => n_id x = n_id y
  | LIST_INCLUDE_PROG | LIST_EXCLUDE_PROG =>
      match n_name x, n_name y with
      | Some (_, wx), Some (_, wy) => eq_nocase wx wy
      | None, None => n_id x = n_id y
      | _, _ => False
      end
  | LIST_INCLUDE_DESK =>
      match n_name x, n_name y with
      | Some (_, wx), Some (_, wy) => eq_nocase wx wy
      | _, _ => False
      end
  | LIST_INVALID_TYPE => False
  end.

(** No two items of the sequence are duplicates of each other. *)
Definition no_duplicates (ty : list_type) (ns : list node) : Prop :=
  ∀ i j x y, ns !! i = Some x → ns !! j = Some y → duplicates ty x y → i = j.

(** What a call that went from [m] to [m'] and returned [r] did to the
    heap: it released no object that existed; an object that it allocated and
    did not release is the item it returned or the name of that item; and it
    called [free] not at all, or once, on the buffer it had allocated first,
    which left the heap as it was. *)
Definition call_effect (m : mem) (r : ptr) (m' : mem) : Prop :=
  (∀ c, is_Some (heap m !! c) → is_Some (heap m' !! c)) ∧
  (∀ c, heap m !! c = None → is_Some (heap m' !! c) →
        ∃ a it, r = Some a ∧ heap m' !! a = Some (Item it) ∧
                (c = a ∨ item_name it = Some c)) ∧
  (freed m' = freed m ∨
   freed m' = freed m ++ [fresh (dom (heap m))] ∧ heap m' = heap m).

(** ** What a request stands for *)

(** The id and the name that [add_list_item] gives to the item it creates
    for a request, when it gets as far as the scan: in a hook list the id of
    the name if a name is given, and otherwise the given id with the name the
    directory has for it; in a program list the id and the name as given; in
    a desktop list the name, with the id that has to be zero. *)
Definition request_entry (get_hook_id_from_name : wstring → option Z)
    (get_hook_name_from_id : Z → option wstring)
    (ty : list_type) (id : Z) (name : option wstring)
  : option (Z * option wstring) :=
  match ty with
  | LIST_INCLUDE_HOOK | LIST_EXCLUDE_HOOK =>
      match name with
      | Some nm =>
          match get_hook_id_from_name nm with
          | Some id' => Some (id', name)
          | None => None
          end
      | None => Some (id, get_hook_name_from_id id)
      end
  | LIST_INCLUDE_PROG | LIST_EXCLUDE_PROG => Some (id, name)
  | LIST_INCLUDE_DESK =>
      match name with
      | Some _ => if id =? 0 then Some (id, name) else None
      | None => None
      end
  | LIST_INVALID_TYPE => None
  end.

(** The item [n] has the id [k] and a name of text [nm], or no name. *)
Definition carries (n : node) (k : Z) (nm : option wstring) : Prop :=
  n_id n = k ∧ snd <$> n_name n = nm.

(** No item of the sequence is a duplicate of an item with id [k] and name
    [nm]. *)
Definition not_in_list (ty : list_type) (ns : list node) (k : Z)
    (nm : option wstring) : Prop :=
  ∀ x n, x ∈ ns → carries n k nm → ¬ duplicates ty x n.

(** An item with id [k1] and name [nm1] is no duplicate of a later item
    with id [k2] and name [nm2]. *)
Definition distinct_requests (ty : list_type) (k1 : Z) (nm1 : option wstring)
    (k2 : Z) (nm2 : option wstring) : Prop :=
  ∀ a b, carries a k1 nm1 → carries b k2 nm2 → ¬ duplicates ty a b.

(** ** Counting memory accesses *)

(** A computation that also returns how many loads and stores of objects
    of the heap it has made. *)
Definition Counted (A : Type) := mem → result (A * nat).

Definition counted_ret {A} (a : A) : Counted A := fun m => Done (a, O) m.

Definition counted_bind {A B} (c : Counted A) (k : A → Counted B)
  : Counted B :=
  fun m => match c m with
           | Done (a, n) m1 =>
               match k a m1 with
               | Done (b, n') m2 => Done (b, (n + n')%nat) m2
               | Fatal => Fatal
               | Fault => Fault
               | Diverge => Diverge
               end
           | Fatal => Fatal
           | Fault => Fault
           | Diverge => Diverge
           end.

#[global] Instance Counted_ret : MRet Counted := @counted_ret.
#[global] Instance Counted_bind : MBind Counted :=
  fun A B k c => counted_bind c k.

(** One load or store. *)
Definition access {A} (c : M A) : Counted A :=
  fun m => match c m with
           | Done a m' => Done (a, 1%nat) m'
           | Fatal => Fatal
           | Fault => Fault
           | Diverge => Diverge
           end.

(** [append_item] with its loads and stores counted. *)
Definition append_item_counted (store item : loc) : Counted unit :=
  st ← access (load_store store);
  match st.(store_head) with
  | None =>
      access
        (write store (Store (mk_store st.(store_type) (Some item) (Some item))))
  | Some _ =>
      match st.(store_tail) with
      | None => access fault
      | Some t =>
          (* store->tail->next = item; store->tail = item; *)
          last ← access (load_item t);
          access
            (write t (Item (mk_item last.(item_id) last.(item_name)
                              (Some item))));;
          access
            (write store
               (Store (mk_store st.(store_type) st.(store_head) (Some item))))
      end
  end.

(** Forgetting the count. *)
Definition uncounted {A} (r : result (A * nat)) : result A :=
  match r with
  | Done (a, _) m => Done a m
  | Fatal => Fatal
  | Fault => Fault
  | Diverge => Diverge
  end.

(** ** Concrete stores *)

(** The wide string of an ASCII text. *)
Definition wide (s : string) : wstring :=
  (fun c => Z.of_N (Ascii.N_of_ascii c)) <$> String.list_ascii_of_string s.

(** A hook directory with two hooks. *)
Definition demo_hook_id (nm : wstring) : option Z :=
  if bool_decide (nm = wide "WH_KEYBOARD") then Some 2
  else if bool_decide (nm = wide "WH_MOUSE") then Some 7
  else None.

Definition demo_hook_name (id : Z) : option wstring :=
  if id =? 2 then Some (wide "WH_KEYBOARD")
  else if id =? 7 then Some (wide "WH_MOUSE")
  else None.

(** A hook include list with the keyboard hook; the handle is at address 1
    and the store at address 2. *)
Definition hook_mem : mem :=
  mk_mem {[ 1%positive := Handle (Some 2%positive);
            2%positive := Store (mk_store LIST_INCLUDE_HOOK
                                   (Some 3%positive) (Some 3%positive));
            3%positive := Item (mk_item 2 (Some 4%positive) None);
            4%positive := WStr (wide "WH_KEYBOARD") ]} [].

Definition hook_nodes : list node :=
  [mk_node 3%positive 2 (Some (4%positive, wide "WH_KEYBOARD"))].

(** An empty hook include list. *)
Definition hook_empty_mem : mem :=
  mk_mem {[ 1%positive := Handle (Some 2%positive);
            2%positive := Store (mk_store LIST_INCLUDE_HOOK None None) ]} [].

(** A program exclude list: "Foo.exe", the process 1234, and "notepad.exe"
    stored together with the id 77. *)
Definition prog_mem : mem :=
  mk_mem {[ 1%positive := Handle (Some 2%positive);
            2%positive := Store (mk_store LIST_EXCLUDE_PROG
                                   (Some 3%positive) (Some 6%positive));
            3%positive := Item (mk_item 0 (Some 4%positive) (Some 5%positive));
            4%positive := WStr (wide "Foo.exe");
            5%positive := Item (mk_item 1234 None (Some 6%positive));
            6%positive := Item (mk_item 77 (Some 7%positive) None);
            7%positive := WStr (wide "notepad.exe") ]} [].

Definition prog_nodes : list node :=
  [mk_node 3%positive 0 (Some (4%positive, wide "Foo.exe"));
   mk_node 5%positive 1234 None;
   mk_node 6%positive 77 (Some (7%positive, wide "notepad.exe"))].

(** An empty desktop list. *)
Definition desk_mem : mem :=
  mk_mem {[ 1%positive := Handle (Some 2%positive);
            2%positive := Store (mk_store LIST_INCLUDE_DESK None None) ]} [].

Abbreviation demo_add := (add_list_item demo_hook_id demo_hook_name).

(** A desktop list with the desktop "Default". *)
Definition desktop_mem : mem :=
  mk_mem {[ 1%positive := Handle (Some 2%positive);
            2%positive := Store (mk_store LIST_INCLUDE_DESK
                                   (Some 3%positive) (Some 3%positive));
            3%positive := Item (mk_item 0 (Some 4%positive) None);
            4%positive := WStr (wide "Default") ]} [].

Definition desktop_nodes : list node :=
  [mk_node 3%positive 0 (Some (4%positive, wide "Default"))].

(** ** The monad *)

Lemma bind_Done {A B} (c : M A) (k : A → M B) m a m' :
  c m = Done a m' → (c ≫= k) m = k a m'.
Proof. intros H. unfold mbind, M_bind, bind. by rewrite H. Qed.

Lemma load_store_Done m s st :
  heap m !! s = Some (Store st) → load_store s m = Done st m.
Proof. intros H. unfold load_store. by rewrite H. Qed.

Lemma load_item_Done m a it :
  heap m !! a = Some (Item it) → load_item a m = Done it m.
Proof. intros H. unfold load_item. by rewrite H. Qed.

Lemma load_wstr_Done m a w :
  heap m !! a = Some (WStr w) → load_wstr a m = Done w m.
Proof. intros H. unfold load_wstr. by rewrite H. Qed.

Lemma load_handle_Done m a p :
  heap m !! a = Some (Handle p) → load_handle a m = Done p m.
Proof. intros H. unfold load_handle. by rewrite H. Qed.

Lemma write_Done m a c :
  is_Some (heap m !! a) →
  write a c m = Done tt (mk_mem (<[a := c]> (heap m)) (freed m)).
Proof. intros [x H]. unfold write. by rewrite H. Qed.

Lemma free_Done m a :
  is_Some (heap m !! a) →
  free (Some a) m = Done tt (mk_mem (delete a (heap m)) (freed m ++ [a])).
Proof. intros [x H]. unfold free. by rewrite H. Qed.

Lemma alloc_fresh (h : gmap loc cell) : h !! fresh (dom h) = None.
Proof. apply not_elem_of_dom, is_fresh. Qed.

(** ** Chains *)

Lemma elem_of_cells a ns :
  a ∈ cells ns ↔ ∃ n, n ∈ ns ∧ a ∈ node_cells n.
Proof. unfold cells. rewrite list_elem_of_bind. naive_solver. Qed.

Lemma cells_cons n ns : cells (n :: ns) = node_cells n ++ cells ns.
Proof. reflexivity. Qed.

Lemma cells_app ns1 ns2 : cells (ns1 ++ ns2) = cells ns1 ++ cells ns2.
Proof. unfold cells. apply bind_app. Qed.

Lemma n_loc_in_node_cells n : n_loc n ∈ node_cells n.
Proof. unfold node_cells. destruct (n_name n) as [[a w]|]; set_solver. Qed.

Lemma name_in_node_cells n a w : n_name n = Some (a, w) → a ∈ node_cells n.
Proof. unfold node_cells. intros ->. set_solver. Qed.

Lemma name_ok_frame h h' n :
  (∀ a, a ∈ node_cells n → h' !! a = h !! a) → name_ok h n → name_ok h' n.
Proof.
  unfold name_ok. intros Hf. destruct (n_name n) as [[a w]|] eqn:E; [|done].
  intros <-. apply Hf. by eapply name_in_node_cells.
Qed.

(** A chain only depends on the objects of its nodes. *)
Lemma chain_frame h h' ns : ∀ p,
  (∀ a, a ∈ cells ns → h' !! a = h !! a) → chain h p ns → chain h' p ns.
Proof.
  induction ns as [|n ns IH]; intros p Hf; simpl; [done|].
  intros [-> (nx & Hn & Hnm & Hc)]. split; [done|]. exists nx.
  split_and!.
  - rewrite Hf; [done|]. rewrite cells_cons, elem_of_app. left.
    apply n_loc_in_node_cells.
  - eapply name_ok_frame; [|done]. intros a Ha. apply Hf.
    rewrite cells_cons, elem_of_app. by left.
  - apply IH; [|done]. intros a Ha. apply Hf.
    rewrite cells_cons, elem_of_app. by right.
Qed.

(** Every object of a chain is allocated. *)
Lemma chain_allocated h ns : ∀ p a,
  chain h p ns → a ∈ cells ns → is_Some (h !! a).
Proof.
  induction ns as [|n ns IH]; intros p a; simpl.
  - intros _ Ha. by apply elem_of_nil in Ha.
  - intros [-> (nx & Hn & Hnm & Hc)]. rewrite cells_cons, elem_of_app.
    intros [Ha|Ha]; [|by eapply IH].
    unfold node_cells, name_ok in *.
    destruct (n_name n) as [[b w]|]; set_solver.
Qed.

Lemma chain_insert_fresh h ns p a c :
  h !! a = None → chain h p ns → chain (<[a := c]> h) p ns.
Proof.
  intros Ha Hc. eapply chain_frame; [|done].
  intros b Hb. apply lookup_insert_ne. intros ->.
  destruct (chain_allocated _ _ _ _ Hc Hb) as [x Hx]. congruence.
Qed.

Lemma cells_length ns : (length ns ≤ length (cells ns))%nat.
Proof.
  induction ns as [|n ns IH]; simpl; [lia|].
  rewrite cells_cons, length_app. unfold node_cells.
  destruct (n_name n) as [[a w]|]; simpl; lia.
Qed.

(** A chain without sharing is no longer than the heap is large. *)
Lemma chain_length h p ns :
  chain h p ns → NoDup (cells ns) → (length ns ≤ size h)%nat.
Proof.
  intros Hc Hnd. etrans; [apply cells_length|].
  rewrite <- size_dom.
  change (size (dom h)) with (length (elements (dom h))).
  apply submseteq_length, NoDup_submseteq; [done|].
  intros a Ha. apply elem_of_elements, elem_of_dom.
  by eapply chain_allocated.
Qed.

(** ** The duplicate scans *)

Lemma matches_hook id n nx m :
  hook_id_in_list id (node_item n nx) m = Done (hook_match id n) m.
Proof. reflexivity. Qed.

Lemma matches_pid id n nx m :
  pid_in_list id (node_item n nx) m = Done (pid_match id n) m.
Proof.
  unfold pid_in_list, pid_match, node_item. simpl.
  by destruct (n_name n).
Qed.

Lemma matches_name nm n nx m :
  name_ok (heap m) n →
  name_in_list nm (node_item n nx) m = Done (name_match nm n) m.
Proof.
  unfold name_in_list, name_match, name_ok, node_item. simpl.
  destruct (n_name n) as [[a w]|]; simpl; [|done].
  intros H. by rewrite (bind_Done _ _ _ _ _ (load_wstr_Done _ _ _ H)).
Qed.

Lemma find_item_chain matches f m :
  (∀ n nx, name_ok (heap m) n → matches (node_item n nx) m = Done (f n) m) →
  ∀ ns p fuel, chain (heap m) p ns → (length ns < fuel)%nat →
  find_item fuel matches p m = Done (n_loc <$> find f ns) m.
Proof.
  intros Hm. induction ns as [|n ns IH]; intros p [|fuel]; simpl; try lia.
  - by intros ->.
  - intros [-> (nx & Hn & Hnm & Hc)] Hlen.
    rewrite (bind_Done _ _ _ _ _ (load_item_Done _ _ _ Hn)).
    rewrite (bind_Done _ _ _ _ _ (Hm _ _ Hnm)).
    destruct (f n); [done|]. apply IH; [done|lia].
Qed.

Lemma scan_chain matches f m p ns :
  (∀ n nx, name_ok (heap m) n → matches (node_item n nx) m = Done (f n) m) →
  chain (heap m) p ns → NoDup (cells ns) →
  scan matches p m = Done (n_loc <$> find f ns) m.
Proof.
  intros Hm Hc Hnd. unfold scan, bounded_walk.
  eapply find_item_chain; [done..|].
  apply chain_length in Hc; [lia|done].
Qed.

(** ** Appending an item *)

Lemma name_ok_frame_name h h' n :
  (∀ a w, n_name n = Some (a, w) → h' !! a = h !! a) →
  name_ok h n → name_ok h' n.
Proof.
  unfold name_ok. intros Hf. destruct (n_name n) as [[a w]|]; [|done].
  intros <-. by eapply Hf.
Qed.

Lemma name_ne_loc n a w :
  NoDup (node_cells n) → n_name n = Some (a, w) → a ≠ n_loc n.
Proof.
  unfold node_cells. intros Hnd E. rewrite E in Hnd.
  apply NoDup_cons in Hnd as [Hb _]. intros ->. apply Hb. by left.
Qed.

Lemma chain_snoc h h' n : ∀ ns p,
  chain h p ns → NoDup (cells ns) →
  h' !! n_loc n = Some (Item (node_item n None)) →
  name_ok h' n →
  (∀ t, last ns = Some t →
        h' !! n_loc t = Some (Item (node_item t (Some (n_loc n))))) →
  (∀ c, c ∈ cells ns → Some c ≠ n_loc <$> last ns → h' !! c = h !! c) →
  chain h' (match ns with [] => Some (n_loc n) | _ => p end) (ns ++ [n]).
Proof.
  induction ns as [|x ns IH]; intros p Hc Hnd Hn Hnm Ht Hf.
  - simpl. split; [done|]. by exists None.
  - destruct Hc as [-> (nx & Hx & Hxm & Hc)].
    rewrite cells_cons in Hnd. apply NoDup_app in Hnd as (Hndx & Hdisj & Hnd).
    change ((x :: ns) ++ [n]) with (x :: (ns ++ [n])).
    split; [done|].
    destruct ns as [|y ns].
    + simpl in Hc. subst nx. exists (Some (n_loc n)). split_and!.
      * by apply Ht.
      * eapply name_ok_frame_name; [|exact Hxm]. intros a w Ha. apply Hf.
        -- rewrite cells_cons, elem_of_app. left.
           by eapply name_in_node_cells.
        -- simpl. intros [= ->]. by eapply name_ne_loc.
      * simpl. split; [done|]. by exists None.
    + exists nx.
      assert (Hlast : last (x :: y :: ns) = last (y :: ns)) by done.
      assert (Hin : ∀ t, last (y :: ns) = Some t → n_loc t ∈ cells (y :: ns)).
      { intros t Hl. apply elem_of_cells. exists t. split.
        - by apply last_Some_elem_of.
        - apply n_loc_in_node_cells. }
      assert (Hxf : ∀ a, a ∈ node_cells x → h' !! a = h !! a).
      { intros a Ha. apply Hf.
        - rewrite cells_cons, elem_of_app. by left.
        - rewrite Hlast. destruct (last (y :: ns)) as [t|] eqn:El; [|done].
          simpl. intros [= ->]. eapply Hdisj; [done|]. by apply Hin. }
      split_and!.
      * rewrite Hxf; [done|]. apply n_loc_in_node_cells.
      * by eapply name_ok_frame.
      * specialize (IH nx Hc Hnd Hn Hnm). simpl in IH. apply IH.
        -- intros t Hl. apply Ht. by rewrite Hlast.
        -- intros c Hcin Hne. apply Hf.
           ++ rewrite cells_cons, elem_of_app. by right.
           ++ by rewrite Hlast.
Qed.

(** The objects of a chain are items and strings. *)
Lemma chain_cell_kind h ns : ∀ p c,
  chain h p ns → c ∈ cells ns →
  (∃ it, h !! c = Some (Item it)) ∨ (∃ w, h !! c = Some (WStr w)).
Proof.
  induction ns as [|n ns IH]; intros p c; simpl.
  - intros _ Hc. by apply elem_of_nil in Hc.
  - intros [-> (nx & Hn & Hnm & Hc)]. rewrite cells_cons, elem_of_app.
    intros [Ha|Ha]; [|by eapply IH].
    unfold node_cells, name_ok in *.
    destruct (n_name n) as [[b w]|].
    + apply elem_of_cons in Ha as [->|Ha]; [eauto|].
      apply list_elem_of_singleton in Ha as ->. eauto.
    + apply list_elem_of_singleton in Ha as ->. eauto.
Qed.

(** The last item of a chain has no successor. *)
Lemma chain_last h ns : ∀ p t,
  chain h p ns → last ns = Some t →
  h !! n_loc t = Some (Item (node_item t None)).
Proof.
  induction ns as [|n ns IH]; intros p t; [done|].
  intros [-> (nx & Hn & Hnm & Hc)] Hl.
  destruct ns as [|y ns].
  - simpl in Hc, Hl. by simplify_eq.
  - by eapply IH.
Qed.

Lemma chain_head h p ns : chain h p ns → p = n_loc <$> head ns.
Proof. destruct ns; simpl; naive_solver. Qed.

Lemma append_item_spec h h2 tr s ty ns n :
  list_inv h s ty ns →
  (∀ c, is_Some (h !! c) → h2 !! c = h !! c) →
  h !! n_loc n = None →
  h2 !! n_loc n = Some (Item (node_item n None)) →
  name_ok h2 n →
  NoDup (node_cells n) →
  (∀ b w, n_name n = Some (b, w) → b ∉ cells ns) →
  ∃ h', append_item s (n_loc n) (mk_mem h2 tr) = Done tt (mk_mem h' tr) ∧
        list_inv h' s ty (ns ++ [n]) ∧
        (∀ c, c ≠ s → Some c ≠ last (n_loc <$> ns) → h' !! c = h2 !! c).
Proof.
  intros (st & Hs & Hty & Hc & Htl & Hnd) Hext Ha Hn Hnm Hndn Hb.
  assert (Hs2 : h2 !! s = Some (Store st)) by (rewrite Hext; eauto).
  assert (Hsa : s ≠ n_loc n) by congruence.
  assert (Hsb : ∀ b w, n_name n = Some (b, w) → b ≠ s).
  { intros b w E ->. unfold name_ok in Hnm. rewrite E in Hnm. congruence. }
  assert (Hdisj : ∀ c, c ∈ cells ns → c ∉ node_cells n).
  { intros c Hc1 Hc2. unfold node_cells in Hc2.
    assert (c ≠ n_loc n).
    { intros ->. destruct (chain_allocated _ _ _ _ Hc Hc1). congruence. }
    destruct (n_name n) as [[b w]|] eqn:E.
    - apply elem_of_cons in Hc2 as [->|Hc2]; [by eapply Hb|].
      by apply list_elem_of_singleton in Hc2.
    - by apply list_elem_of_singleton in Hc2. }
  assert (Hnd' : NoDup (cells (ns ++ [n]))).
  { rewrite cells_app. apply NoDup_app. split_and!; [done| |].
    - intros c Hc1. unfold cells. simpl. rewrite app_nil_r. by apply Hdisj.
    - unfold cells. simpl. by rewrite app_nil_r. }
  assert (Hlast' : last (n_loc <$> ns ++ [n]) = Some (n_loc n)).
  { rewrite fmap_app. change (n_loc <$> [n]) with [n_loc n]. apply last_snoc. }
  unfold append_item.
  rewrite (bind_Done _ _ _ _ _ (load_store_Done (mk_mem h2 tr) _ _ Hs2)).
  pose proof (chain_head _ _ _ Hc) as Hhd.
  destruct ns as [|x ns].
  - simpl in Hhd. rewrite Hhd.
    rewrite write_Done by (simpl; eauto). simpl.
    eexists. split; [done|]. split.
    + eexists. split_and!; [apply lookup_insert_eq|done| |done|done].
      simpl. split; [done|]. exists None. split; [|split; [|done]].
      * by rewrite lookup_insert_ne.
      * eapply name_ok_frame_name; [|exact Hnm].
        intros b w E. rewrite lookup_insert_ne; [done|].
        intros <-. by eapply Hsb.
    + intros c Hcs _. by rewrite lookup_insert_ne.
  - simpl in Hhd. rewrite Hhd, Htl.
    destruct (last (x :: ns)) as [t|] eqn:El; [|by apply last_None in El].
    rewrite fmap_last, El. simpl.
    pose proof (chain_last _ _ _ _ Hc El) as Ht.
    assert (Ht2 : h2 !! n_loc t = Some (Item (node_item t None))).
    { rewrite Hext; eauto. }
    assert (Hts : n_loc t ≠ s) by congruence.
    assert (Hta : n_loc t ≠ n_loc n) by congruence.
    rewrite (bind_Done _ _ _ _ _ (load_item_Done (mk_mem h2 tr) _ _ Ht2)).
    erewrite bind_Done; [|apply write_Done; simpl; eauto].
    rewrite write_Done by (simpl; rewrite lookup_insert_ne; eauto).
    simpl. eexists. split; [done|]. split.
    + eexists. split_and!; [apply lookup_insert_eq|done| |done|done].
      simpl store_head. rewrite <- Hhd.
      change (chain ?h' (store_head st) ?l) with
        (chain h' (match x :: ns with [] => Some (n_loc n) | _ => store_head st end) l).
      eapply chain_snoc; [exact Hc|done|..].
      * rewrite !lookup_insert_ne by done. done.
      * eapply name_ok_frame_name; [|exact Hnm].
        intros b w E. rewrite !lookup_insert_ne; [done| |].
        -- intros <-. unfold name_ok in Hnm. rewrite E in Hnm. congruence.
        -- intros <-. by eapply Hsb.
      * intros t' El'. rewrite El in El'. injection El' as <-.
        rewrite lookup_insert_ne by done. by rewrite lookup_insert_eq.
      * intros c Hcin Hne. rewrite El in Hne. simpl in Hne.
        rewrite !lookup_insert_ne.
        -- apply Hext. by eapply chain_allocated.
        -- congruence.
        -- intros <-.
           destruct (chain_cell_kind _ _ _ _ Hc Hcin) as [[? ?]|[? ?]]; congruence.
    + intros c Hcs Hne. rewrite !lookup_insert_ne; [done|congruence|done].
Qed.

Lemma new_item_spec m s ty ns id name hk :
  list_inv (heap m) s ty ns →
  (∀ k w, hk = Some (k, w) → heap m !! k = Some (WStr w) ∧ k ∉ cells ns) →
  ∃ h', new_item s id name (fst <$> hk) m
          = Done (Some (n_loc (new_node (heap m) id name hk)))
                 (mk_mem h' (freed m)) ∧
        list_inv h' s ty (ns ++ [new_node (heap m) id name hk]) ∧
        (∀ c, is_Some (heap m !! c) → c ≠ s →
              Some c ≠ last (n_loc <$> ns) → h' !! c = heap m !! c).
Proof.
  destruct m as [h tr]. simpl. intros Hinv Hk.
  set (a := fresh (dom h)).
  set (h1 := <[a := Item (mk_item 0 None None)]> h).
  assert (Ha : h !! a = None) by apply alloc_fresh.
  assert (Hb : h1 !! fresh (dom h1) = None) by apply alloc_fresh.
  assert (Hba : fresh (dom h1) ≠ a).
  { intros E. rewrite E in Hb. unfold h1 in Hb. by rewrite lookup_insert_eq in Hb. }
  assert (Hbh : h !! fresh (dom h1) = None).
  { rewrite <- Hb. unfold h1 at 2. symmetry. by apply lookup_insert_ne. }
  unfold new_item.
  erewrite bind_Done; [|reflexivity]. fold a. simpl heap. fold h1.
  set (n := new_node h id name hk).
  assert (∃ h2,
    (match fst <$> hk with
     | Some h0 => ret (Some h0)
     | None => match name with
               | Some w => a0 ← must_wcsdup w; ret (Some a0)
               | None => ret (None : ptr)
               end
     end) (mk_mem h1 tr) = Done (fst <$> n_name n) (mk_mem h2 tr) ∧
    (∀ c, c ≠ a → is_Some (h !! c) → h2 !! c = h !! c) ∧
    h2 !! a = Some (Item (mk_item 0 None None)) ∧
    name_ok h2 n ∧ NoDup (node_cells n) ∧
    (∀ b w, n_name n = Some (b, w) → b ∉ cells ns)) as (h2 & Hnm & Hext & Ha2 & Hok & Hnd & Hfr).
  { destruct hk as [[k w]|]; [|destruct name as [w|]].
    - destruct (Hk k w eq_refl) as [Hkw Hkn].
      assert (k ≠ a) by congruence.
      exists h1. split_and!; [done| | | | |].
      + intros c Hc _. unfold h1. by rewrite lookup_insert_ne.
      + unfold h1. by rewrite lookup_insert_eq.
      + unfold name_ok, h1. simpl. by rewrite lookup_insert_ne.
      + unfold node_cells. simpl. apply NoDup_cons. split.
        * by intros ->%list_elem_of_singleton.
        * apply NoDup_singleton.
      + simpl. by intros b w' [= <- <-].
    - exists (<[fresh (dom h1) := WStr w]> h1). split_and!; [done| | | | |].
      + intros c Hc [x Hx]. rewrite lookup_insert_ne by congruence.
        unfold h1. by rewrite lookup_insert_ne.
      + rewrite lookup_insert_ne by done. unfold h1. by rewrite lookup_insert_eq.
      + unfold name_ok. simpl. fold a. fold h1. by rewrite lookup_insert_eq.
      + unfold node_cells. simpl. fold a. fold h1. apply NoDup_cons. split.
        * by intros E%list_elem_of_singleton.
        * apply NoDup_singleton.
      + simpl. fold a. fold h1. intros b w' [= <- <-] Hin.
        destruct Hinv as (st & _ & _ & Hc & _).
        destruct (chain_allocated _ _ _ _ Hc Hin). congruence.
    - exists h1. split_and!; [done| | |done| |done].
      + intros c Hc _. unfold h1. by rewrite lookup_insert_ne.
      + unfold h1. by rewrite lookup_insert_eq.
      + unfold node_cells. simpl. apply NoDup_singleton. }
  erewrite bind_Done; [|exact Hnm].
  erewrite bind_Done; [|apply write_Done; simpl; eauto].
  simpl heap. simpl freed.
  edestruct (append_item_spec h (<[a := Item (node_item n None)]> h2) tr
               s ty ns n) as (h' & Happ & Hinv' & Hfr'); [done|..|done|done|].
  - intros c [x Hx]. assert (c ≠ a) by congruence.
    rewrite lookup_insert_ne by done. apply Hext; eauto.
  - done.
  - by rewrite lookup_insert_eq.
  - eapply name_ok_frame_name; [|exact Hok].
    intros b w E. rewrite lookup_insert_ne; [done|].
    intros <-. by eapply name_ne_loc in E.
  - change (mk_item id (fst <$> n_name n) None) with (node_item n None).
    erewrite bind_Done; [|exact Happ].
    exists h'. split; [done|]. split; [done|].
    intros c Hc Hcs Hcl. rewrite Hfr' by done.
    assert (c ≠ a) by (destruct Hc; congruence).
    rewrite lookup_insert_ne by done. by apply Hext.
Qed.

(** ** What [add_list_item] does *)

Lemma list_inv_insert_fresh h s ty ns a c :
  h !! a = None → list_inv h s ty ns → list_inv (<[a := c]> h) s ty ns.
Proof.
  intros Ha (st & Hs & Hty & Hc & Htl & Hnd). exists st.
  split_and!; [|done| |done|done].
  - rewrite lookup_insert_ne; [done|congruence].
  - by apply chain_insert_fresh.
Qed.

Lemma new_item_appends m s ty ns id name :
  list_inv (heap m) s ty ns →
  appends_new m s ty ns id name (new_item s id name None m).
Proof.
  intros Hinv.
  destruct (new_item_spec m s ty ns id name None Hinv) as (h' & Hr & Hinv' & Hfr);
    [done|].
  exists (new_node (heap m) id name None), h'. split_and!; [done|done| | |done|done].
  - unfold new_node. simpl. by destruct name.
  - intros c. unfold new_node, node_cells. simpl. destruct name as [w|]; simpl.
    + intros [->|Hc]%elem_of_cons;
        [|apply list_elem_of_singleton in Hc as ->; apply alloc_fresh].
      match goal with |- _ !! fresh (dom ?h1) = None =>
        pose proof (alloc_fresh h1) as Hb;
        destruct (decide (fresh (dom h1) = fresh (dom (heap m)))) as [E|E] end.
      * rewrite E. apply alloc_fresh.
      * by rewrite lookup_insert_ne in Hb.
    + intros ->%list_elem_of_singleton. apply alloc_fresh.
Qed.

Lemma found_or_new_plain m s ty ns id name f :
  list_inv (heap m) s ty ns →
  add_post m s ty ns (lookup_or_new f ns id name false)
    (found_or_new s id name None (n_loc <$> find f ns) m).
Proof.
  intros Hinv. unfold lookup_or_new. destruct (find f ns) as [n|]; simpl.
  - unfold returns_existing. rewrite app_nil_r. by destruct m.
  - by apply new_item_appends.
Qed.

Lemma scan_inv matches f m s ty ns st :
  (∀ n nx, name_ok (heap m) n → matches (node_item n nx) m = Done (f n) m) →
  heap m !! s = Some (Store st) → list_inv (heap m) s ty ns →
  scan matches (store_head st) m = Done (n_loc <$> find f ns) m.
Proof.
  intros Hm Hs (st' & Hs' & _ & Hc & _ & Hnd).
  assert (st' = st) as -> by congruence.
  by eapply scan_chain.
Qed.

Section AddListItemSpec.
Variable get_hook_id_from_name : wstring → option Z.
Variable get_hook_name_from_id : Z → option wstring.

Abbreviation add_item :=
  (add_list_item get_hook_id_from_name get_hook_name_from_id).
Abbreviation outcome_of :=
  (add_outcome get_hook_id_from_name get_hook_name_from_id).

Lemma add_hook_no_name m s st ty ns id :
  heap m !! s = Some (Store st) → list_inv (heap m) s ty ns →
  add_post m s ty ns
    (lookup_or_new (hook_match id) ns id (get_hook_name_from_id id)
       (bool_decide (is_Some (get_hook_name_from_id id))))
    ((hookname ← match get_hook_name_from_id id with
                 | Some w => a ← must_wcsdup w; ret (Some a)
                 | None => ret (None : ptr)
                 end;
      item ← scan (hook_id_in_list id) (store_head st);
      found_or_new s id None hookname item) m).
Proof.
  intros Hs Hinv. destruct (get_hook_name_from_id id) as [w|].
  - destruct m as [h tr]. simpl in *.
    set (k := fresh (dom h)).
    assert (Hk : h !! k = None) by apply alloc_fresh.
    set (m1 := mk_mem (<[k := WStr w]> h) tr).
    assert (Hinv1 : list_inv (heap m1) s ty ns)
      by by apply list_inv_insert_fresh.
    assert (Hs1 : heap m1 !! s = Some (Store st)).
    { simpl. rewrite lookup_insert_ne; [done|congruence]. }
    erewrite bind_Done; [|erewrite bind_Done; reflexivity].
    cbn [heap freed]. fold k. fold m1.
    erewrite bind_Done;
      [|eapply (scan_inv _ (hook_match id)); [|done..]; intros; reflexivity].
    unfold lookup_or_new. destruct (find (hook_match id) ns) as [n|]; simpl.
    + unfold existing_item. erewrite bind_Done;
        [|apply free_Done; simpl; by rewrite lookup_insert_eq].
      unfold returns_existing. simpl. by rewrite delete_insert_id.
    + assert (Hkc : k ∉ cells ns).
      { intros Hin. destruct Hinv as (? & _ & _ & Hc & _).
        destruct (chain_allocated _ _ _ _ Hc Hin). congruence. }
      destruct (new_item_spec m1 s ty ns id None (Some (k, w)) Hinv1)
        as (h' & Hr & Hinv' & Hfr).
      { intros ? ? [= <- <-]. split; [|done]. simpl. by rewrite lookup_insert_eq. }
      exists (new_node (heap m1) id None (Some (k, w))), h'.
      split_and!; [done|done|done| |done|].
      * intros c. unfold node_cells. simpl.
        intros [->|Hc']%elem_of_cons; [done|].
        apply list_elem_of_singleton in Hc' as ->.
        pose proof (alloc_fresh (<[k := WStr w]> h)) as Hb.
        destruct (decide (fresh (dom (<[k := WStr w]> h)) = k)) as [E|E].
        -- simpl. by rewrite E.
        -- simpl. by rewrite lookup_insert_ne in Hb.
      * intros c [x Hx] Hcs Hcl. simpl in Hx.
        assert (k ≠ c) by (intros E; rewrite E in Hk; congruence).
        rewrite Hfr; [| |done|done]; simpl; rewrite lookup_insert_ne; eauto.
  - erewrite bind_Done; [|reflexivity].
    erewrite bind_Done;
      [|eapply (scan_inv _ (hook_match id)); [|done..]; intros; reflexivity].
    by apply found_or_new_plain.
Qed.

(** [add_list_item] on a store that holds the sequence [ns] does what
    [add_outcome] says. *)
Lemma add_list_item_outcome m s ty ns id name :
  list_inv (heap m) s ty ns →
  add_post m s ty ns (outcome_of ty ns id name)
    (add_item (Some s) id name m).
Proof.
  intros Hinv. pose proof Hinv as (st & Hs & Hty & Hc & Htl & Hnd).
  unfold add_list_item.
  rewrite (bind_Done _ _ _ _ _ (load_store_Done _ _ _ Hs)).
  rewrite Hty. destruct ty; simpl; try done.
  - (* desktop *)
    erewrite bind_Done; [|reflexivity].
    destruct name as [nm|]; simpl; [|done].
    erewrite bind_Done; [|reflexivity].
    destruct (id =? 0) eqn:Eid; simpl; [|done].
    erewrite bind_Done; [|reflexivity].
    erewrite bind_Done;
      [|eapply (scan_inv _ (name_match nm)); [|done..]; intros; by apply matches_name].
    by apply found_or_new_plain.
  - (* hook *)
    erewrite bind_Done; [|reflexivity].
    destruct name as [nm|].
    + destruct (get_hook_id_from_name nm) as [id'|]; [|done].
      erewrite bind_Done;
        [|eapply (scan_inv _ (hook_match id')); [|done..]; intros; reflexivity].
      by apply found_or_new_plain.
    + by eapply add_hook_no_name.
  - (* program *)
    erewrite bind_Done; [|reflexivity].
    destruct name as [nm|].
    + erewrite bind_Done;
        [|eapply (scan_inv _ (name_match nm)); [|done..]; intros; by apply matches_name].
      by apply found_or_new_plain.
    + erewrite bind_Done;
        [|eapply (scan_inv _ (pid_match id)); [|done..]; intros; by apply matches_pid].
      by apply found_or_new_plain.
  - erewrite bind_Done; [|reflexivity].
    destruct name as [nm|].
    + destruct (get_hook_id_from_name nm) as [id'|]; [|done].
      erewrite bind_Done;
        [|eapply (scan_inv _ (hook_match id')); [|done..]; intros; reflexivity].
      by apply found_or_new_plain.
    + by eapply add_hook_no_name.
  - erewrite bind_Done; [|reflexivity].
    destruct name as [nm|].
    + erewrite bind_Done;
        [|eapply (scan_inv _ (name_match nm)); [|done..]; intros; by apply matches_name].
      by apply found_or_new_plain.
    + erewrite bind_Done;
        [|eapply (scan_inv _ (pid_match id)); [|done..]; intros; by apply matches_pid].
      by apply found_or_new_plain.
Qed.
End AddListItemSpec.

(** ** Searching a sequence *)

Lemma find_elem (f : node → bool) ns n :
  find f ns = Some n → n ∈ ns ∧ f n = true.
Proof. intros H. apply find_some in H as [H1 H2]. by apply list_elem_of_In in H1. Qed.

Lemma find_none_elem (f : node → bool) ns n :
  find f ns = None → n ∈ ns → f n = false.
Proof. intros H Hn. eapply find_none; [done|]. by apply list_elem_of_In. Qed.

Lemma find_exists (f : node → bool) ns n :
  n ∈ ns → f n = true → ∃ n0, find f ns = Some n0.
Proof.
  intros Hn Hf. destruct (find f ns) as [n0|] eqn:E; [eauto|].
  rewrite (find_none_elem _ _ _ E Hn) in Hf. done.
Qed.

Lemma find_absent (f : node → bool) ns :
  (∀ n, n ∈ ns → f n = false) → find f ns = None.
Proof.
  intros H. destruct (find f ns) as [n0|] eqn:E; [|done].
  apply find_elem in E as [Hin Hf]. rewrite (H _ Hin) in Hf. done.
Qed.

Lemma find_snoc (f : node → bool) ns n :
  find f ns = None → f n = true → find f (ns ++ [n]) = Some n.
Proof.
  induction ns as [|x ns IH]; simpl; intros H Hf.
  - by rewrite Hf.
  - destruct (f x); [done|]. by apply IH.
Qed.

Lemma find_app_l (f : node → bool) ns ns' n :
  find f ns = Some n → find f (ns ++ ns') = Some n.
Proof.
  induction ns as [|x ns IH]; simpl; [done|]. destruct (f x); [done|]. apply IH.
Qed.

Lemma towlower_wcsicmp a : ∀ b, _wcsicmp a b = 0 ↔ eq_nocase a b.
Proof.
  unfold eq_nocase. induction a as [|x a IH]; intros [|y b];
    rewrite ?fmap_cons; cbn [_wcsicmp]; try done.
  destruct (towlower x =? towlower y) eqn:E.
  - apply Z.eqb_eq in E. rewrite IH. split; [by intros ->; rewrite E|].
    by intros [= _ ->].
  - apply Z.eqb_neq in E. split.
    + by destruct (towlower x <? towlower y).
    + by intros [= ? _].
Qed.

Lemma name_match_nocase nm n :
  name_match nm n = true ↔ ∃ a w, n_name n = Some (a, w) ∧ eq_nocase w nm.
Proof.
  unfold name_match. destruct (n_name n) as [[a w]|].
  - rewrite Z.eqb_eq, towlower_wcsicmp. naive_solver.
  - naive_solver.
Qed.

Lemma pid_match_nameless id n :
  pid_match id n = true ↔ n_name n = None ∧ n_id n = id.
Proof.
  unfold pid_match. destruct (n_name n) as [[a w]|]; simpl.
  - naive_solver.
  - rewrite Z.eqb_eq. naive_solver.
Qed.

Lemma hook_match_id id n : hook_match id n = true ↔ n_id n = id.
Proof. unfold hook_match. rewrite Z.eqb_eq. naive_solver. Qed.

Lemma fmap_unique_elem (ns : list node) n n' :
  NoDup (n_id <$> ns) → n ∈ ns → n' ∈ ns → n_id n = n_id n' → n = n'.
Proof.
  induction ns as [|x ns IH]; [by intros _ ?%elem_of_nil|].
  rewrite fmap_cons, NoDup_cons. intros [Hx Hnd] H1 H2 E.
  apply elem_of_cons in H1 as [->|H1]; apply elem_of_cons in H2 as [->|H2].
  - done.
  - exfalso. apply Hx. rewrite E. by apply list_elem_of_fmap_2.
  - exfalso. apply Hx. rewrite <- E. by apply list_elem_of_fmap_2.
  - by apply IH.
Qed.

(** ** Traversal and release *)

Lemma walk_chain m : ∀ ns p fuel,
  chain (heap m) p ns → (length ns < fuel)%nat →
  walk_items fuel p m = Done (node_items ns) m.
Proof.
  induction ns as [|n ns IH]; intros p [|fuel]; simpl; try lia.
  - by intros ->.
  - intros [-> (nx & Hn & Hnm & Hc)] Hlen.
    rewrite (bind_Done _ _ _ _ _ (load_item_Done _ _ _ Hn)).
    erewrite bind_Done; [|apply IH; [done|lia]].
    by rewrite (chain_head _ _ _ Hc).
Qed.

Lemma traverse_inv m s ty ns :
  list_inv (heap m) s ty ns → traverse s m = Done (node_items ns) m.
Proof.
  intros (st & Hs & _ & Hc & _ & Hnd). unfold traverse.
  rewrite (bind_Done _ _ _ _ _ (load_store_Done _ _ _ Hs)).
  unfold bounded_walk. apply walk_chain; [done|].
  apply chain_length in Hc; [lia|done].
Qed.

Lemma free_items_chain : ∀ ns p h tr fuel,
  chain h p ns → NoDup (cells ns) → (length ns < fuel)%nat →
  ∃ h', free_items fuel p (mk_mem h tr) = Done tt (mk_mem h' (tr ++ cells ns)) ∧
        (∀ c, c ∈ cells ns → h' !! c = None) ∧
        (∀ c, c ∉ cells ns → h' !! c = h !! c).
Proof.
  induction ns as [|n ns IH]; intros p h tr [|fuel]; simpl; try lia.
  - intros -> _ _. exists h. unfold cells. simpl. rewrite app_nil_r.
    split; [done|]. split; [by intros c ?%elem_of_nil|done].
  - intros [-> (nx & Hn & Hnm & Hc)] Hnd Hlen.
    rewrite cells_cons in Hnd. apply NoDup_app in Hnd as (Hndn & Hdisj & Hnd).
    rewrite (bind_Done _ _ _ _ _ (load_item_Done (mk_mem h tr) _ _ Hn)).
    assert (∃ h1, free (fst <$> n_name n) (mk_mem h tr)
                    = Done tt (mk_mem h1 (tr ++ match n_name n with
                                                | Some (a, _) => [a]
                                                | None => []
                                                end)) ∧
                  (∀ c, h1 !! c = match n_name n with
                                  | Some (a, _) =>
                                      if decide (c = a) then None else h !! c
                                  | None => h !! c
                                  end)) as (h1 & Hf1 & Hh1).
    { unfold name_ok in Hnm. destruct (n_name n) as [[a w]|]; simpl.
      - rewrite Hnm. eexists. split; [done|]. intros c. simpl.
        destruct (decide (c = a)) as [->|].
        + apply lookup_delete_eq.
        + by apply lookup_delete_ne.
      - exists h. by rewrite app_nil_r. }
    simpl item_name. erewrite bind_Done; [|exact Hf1].
    assert (Hn1 : h1 !! n_loc n = Some (Item (node_item n nx))).
    { rewrite Hh1. destruct (n_name n) as [[a w]|] eqn:E; [|done].
      rewrite decide_False; [done|]. intros Heq.
      by eapply name_ne_loc in E. }
    erewrite bind_Done; [|apply free_Done; simpl; eauto].
    simpl.
    assert (Hframe : ∀ c, c ∉ node_cells n →
              delete (n_loc n) h1 !! c = h !! c).
    { intros c Hc'. assert (c ≠ n_loc n).
      { intros ->. apply Hc', n_loc_in_node_cells. }
      rewrite lookup_delete_ne by done. rewrite Hh1.
      destruct (n_name n) as [[a w]|] eqn:E; [|done].
      rewrite decide_False; [done|]. intros ->.
      by eapply Hc', name_in_node_cells. }
    destruct (IH nx (delete (n_loc n) h1)
                (((tr ++ match n_name n with
                         | Some (a, _) => [a]
                         | None => []
                         end) ++ [n_loc n])) fuel)
      as (h' & Hr & Hgone & Hkeep); [|done|lia|].
    { eapply chain_frame; [|exact Hc]. intros c Hcin. apply Hframe.
      intros Hcn. by eapply Hdisj. }
    exists h'. split_and!.
    + rewrite Hr. do 2 f_equal. rewrite cells_cons, <- !app_assoc.
      f_equal. unfold node_cells. by destruct (n_name n) as [[a w]|].
    + intros c. rewrite cells_cons, elem_of_app.
      destruct (decide (c ∈ cells ns)) as [Hin|Hnin]; [by intros _; apply Hgone|].
      intros [Hcn|?]; [|done]. rewrite Hkeep by done.
      destruct (decide (c = n_loc n)) as [->|Hne]; [apply lookup_delete_eq|].
      rewrite lookup_delete_ne by done. rewrite Hh1.
      unfold node_cells in Hcn. destruct (n_name n) as [[a w]|].
      * apply elem_of_cons in Hcn as [->|Hcn]; [by rewrite decide_True|].
        by apply list_elem_of_singleton in Hcn.
      * by apply list_elem_of_singleton in Hcn.
    + intros c. rewrite cells_cons, elem_of_app. intros Hnot.
      rewrite Hkeep by tauto. apply Hframe. tauto.
Qed.

Lemma list_inv_head_tail h s ty ns st :
  list_inv h s ty ns → h !! s = Some (Store st) →
  (store_head st = None ↔ ns = []) ∧
  (store_tail st = None ↔ ns = []) ∧
  (∀ t, store_tail st = Some t →
        ∃ it, h !! t = Some (Item it) ∧ item_next it = None).
Proof.
  intros (st' & Hs' & _ & Hc & Htl & _) Hs.
  assert (st' = st) as -> by congruence.
  split_and!.
  - rewrite (chain_head _ _ _ Hc). destruct ns; naive_solver.
  - rewrite Htl, fmap_last. destruct (last ns) eqn:E; simpl.
    + split; [done|]. intros ->. done.
    + split; [|done]. intros _. by apply last_None.
  - intros t Ht. rewrite Htl, fmap_last in Ht.
    apply fmap_Some in Ht as (n & Hl & ->).
    eexists. split; [by eapply chain_last|done].
Qed.

(** The append step reads the store and its tail and writes these two; it
    does not walk the list. *)
Lemma append_item_writes m s ty ns st a :
  list_inv (heap m) s ty ns → heap m !! s = Some (Store st) →
  append_item s a m
    = Done tt
        (mk_mem
           match last ns with
           | None =>
               <[s := Store (mk_store ty (Some a) (Some a))]> (heap m)
           | Some t =>
               <[s := Store (mk_store ty (store_head st) (Some a))]>
                 (<[n_loc t := Item (node_item t (Some a))]> (heap m))
           end
           (freed m)).
Proof.
  intros (st' & Hs' & Hty & Hc & Htl & _) Hs.
  assert (st' = st) as -> by congruence.
  unfold append_item.
  rewrite (bind_Done _ _ _ _ _ (load_store_Done _ _ _ Hs)).
  rewrite (chain_head _ _ _ Hc), Htl, fmap_last, Hty.
  destruct ns as [|x ns]; simpl head.
  - simpl. rewrite write_Done by eauto. done.
  - destruct (last (x :: ns)) as [t|] eqn:El; [|by apply last_None in El].
    pose proof (chain_last _ _ _ _ Hc El) as Ht. simpl.
    rewrite (bind_Done _ _ _ _ _ (load_item_Done _ _ _ Ht)).
    erewrite bind_Done; [|apply write_Done; eauto].
    rewrite write_Done; [done|]. simpl.
    destruct (decide (n_loc t = s)) as [->|Hne].
    + rewrite lookup_insert_eq. eauto.
    + rewrite lookup_insert_ne by done. eauto.
Qed.

(** ** The claims *)

Section Claims.
Variable get_hook_id_from_name : wstring → option Z.
Variable get_hook_name_from_id : Z → option wstring.

(** [add_item] is [add_list_item] with the hook directory of the section,
    and [outcome_of] is [add_outcome] with it. *)
Abbreviation add_item :=
  (add_list_item get_hook_id_from_name get_hook_name_from_id).
Abbreviation outcome_of :=
  (add_outcome get_hook_id_from_name get_hook_name_from_id).

Lemma hook_outcome ty ns id name k :
  is_hook ty → hook_id_of get_hook_id_from_name id name = Some k →
  outcome_of ty ns id name =
    lookup_or_new (hook_match k) ns k
      match name with Some _ => name | None => get_hook_name_from_id k end
      match name with
      | Some _ => false
      | None => bool_decide (is_Some (get_hook_name_from_id k))
      end.
Proof.
  intros [-> | ->] Hk; destruct name as [nm|]; simpl in *.
  - by rewrite Hk.
  - by injection Hk as ->.
  - by rewrite Hk.
  - by injection Hk as ->.
Qed.

Lemma returns_existing_plain m n r :
  returns_existing m n false r → r = Done (Some (n_loc n)) m.
Proof. unfold returns_existing. rewrite app_nil_r. by destruct m. Qed.

Lemma prog_outcome ty ns id name :
  is_prog ty →
  outcome_of ty ns id name =
    match name with
    | Some nm => lookup_or_new (name_match nm) ns id name false
    | None => lookup_or_new (pid_match id) ns id None false
    end.
Proof. by intros [-> | ->]. Qed.

(** C1: in a hook store, inserting an id (given, or resolved from the
    name) that an item of the store already has returns that item and
    leaves the heap as it was; inserting the same id twice returns the same
    item both times, and an empty store then holds exactly that item. *)
Theorem hook_duplicate_id_returns_existing m s ty ns id name k :
  list_inv (heap m) s ty ns → is_hook ty →
  hook_id_of get_hook_id_from_name id name = Some k →
  (∀ n, n ∈ ns → n_id n = k →
     ∃ n0 m', add_item (Some s) id name m = Done (Some (n_loc n0)) m' ∧
              n0 ∈ ns ∧ n_id n0 = k ∧ heap m' = heap m ∧
              (NoDup (n_id <$> ns) → n0 = n)) ∧
  (∃ n1 ns1 m1 m2,
     add_item (Some s) id name m = Done (Some (n_loc n1)) m1 ∧
     add_item (Some s) id name m1 = Done (Some (n_loc n1)) m2 ∧
     list_inv (heap m1) s ty ns1 ∧ heap m2 = heap m1 ∧
     n1 ∈ ns1 ∧ n_id n1 = k ∧ (ns = [] → ns1 = [n1])).
Proof.
  intros Hinv Hty Hk.
  pose proof (add_list_item_outcome get_hook_id_from_name
                get_hook_name_from_id m s ty ns id name Hinv) as H.
  rewrite (hook_outcome _ _ _ _ _ Hty Hk) in H. unfold lookup_or_new in H.
  split.
  - intros n Hn Hid.
    destruct (find_exists (hook_match k) ns n Hn) as [n0 E];
      [by apply hook_match_id|].
    rewrite E in H. simpl in H. unfold returns_existing in H.
    apply find_elem in E as [Hn0 Hm0]. apply hook_match_id in Hm0.
    eexists n0, _. split_and!; [exact H|done..|].
    intros Hnd. eapply fmap_unique_elem; [done..|congruence].
  - destruct (find (hook_match k) ns) as [n0|] eqn:E.
    + simpl in H. unfold returns_existing in H.
      match type of H with _ = Done _ ?m' => set (m1 := m') in H end.
      assert (Hinv1 : list_inv (heap m1) s ty ns) by done.
      pose proof (add_list_item_outcome get_hook_id_from_name
                    get_hook_name_from_id m1 s ty ns id name Hinv1) as H1.
      rewrite (hook_outcome _ _ _ _ _ Hty Hk) in H1.
      unfold lookup_or_new in H1. rewrite E in H1.
      apply find_elem in E as [Hn0 Hm0]. apply hook_match_id in Hm0.
      eexists n0, ns, m1, _. split_and!; [exact H|exact H1|done..|].
      intros ->. by apply elem_of_nil in Hn0.
    + destruct H as (n1 & h1 & Hr & Hid & Hnm & Hfresh & Hinv1 & Hfr).
      pose proof (add_list_item_outcome get_hook_id_from_name
                    get_hook_name_from_id (mk_mem h1 (freed m)) s ty
                    (ns ++ [n1]) id name Hinv1) as H1.
      rewrite (hook_outcome _ _ _ _ _ Hty Hk) in H1.
      unfold lookup_or_new in H1.
      rewrite (find_snoc _ _ _ E) in H1 by by apply hook_match_id.
      eexists n1, (ns ++ [n1]), (mk_mem h1 (freed m)), _.
      split_and!; [done|exact H1|done..| | |]; try done.
      * apply elem_of_app. right. by apply list_elem_of_singleton.
      * by intros ->.
Qed.

(** C2: in a hook store, when a name is given and the directory does not
    know it, the insertion returns no item and the memory is exactly as
    before; the process goes on. *)
Theorem hook_unknown_name_returns_no_item m s st id nm :
  heap m !! s = Some (Store st) → is_hook (store_type st) →
  get_hook_id_from_name nm = None →
  add_list_item get_hook_id_from_name get_hook_name_from_id
    (Some s) id (Some nm) m = Done None m.
Proof.
  intros Hs Hty Hnm. unfold add_list_item.
  rewrite (bind_Done _ _ _ _ _ (load_store_Done _ _ _ Hs)).
  destruct Hty as [-> | ->]; (erewrite bind_Done; [|reflexivity]);
    by rewrite Hnm.
Qed.

(** C3: in a hook store, when no name is given and the directory has no
    name for the id, an id that no item has is appended as a new item with
    that id and no name, and the new item is returned. *)
Theorem hook_id_without_name_is_appended m s ty ns id :
  list_inv (heap m) s ty ns → is_hook ty →
  get_hook_name_from_id id = None →
  (∀ n, n ∈ ns → n_id n ≠ id) →
  ∃ n h', add_item (Some s) id None m
            = Done (Some (n_loc n)) (mk_mem h' (freed m)) ∧
          n_id n = id ∧ n_name n = None ∧ heap m !! n_loc n = None ∧
          list_inv h' s ty (ns ++ [n]).
Proof.
  intros Hinv Hty Hnm Hnew.
  pose proof (add_list_item_outcome get_hook_id_from_name
                get_hook_name_from_id m s ty ns id None Hinv) as H.
  rewrite (hook_outcome _ _ _ _ id Hty) in H by done.
  unfold lookup_or_new in H. rewrite Hnm in H.
  rewrite find_absent in H.
  - destruct H as (n & h' & Hr & Hid & Hname & Hfresh & Hinv' & _).
    exists n, h'. split_and!; [done|done| | |done].
    + by destruct (n_name n).
    + apply Hfresh, n_loc_in_node_cells.
  - intros n Hn. apply not_true_is_false. rewrite hook_match_id. by apply Hnew.
Qed.

(** C4: in a program store, inserting a name that equals the name of an
    item up to letter case returns an item with such a name (that item,
    when it is the only one) and changes nothing. *)
Theorem prog_name_dedup_ignores_case m s ty ns id nm n a w :
  list_inv (heap m) s ty ns → is_prog ty →
  n ∈ ns → n_name n = Some (a, w) → eq_nocase w nm →
  ∃ n0 a0 w0,
    add_item (Some s) id (Some nm) m = Done (Some (n_loc n0)) m ∧
    n0 ∈ ns ∧ n_name n0 = Some (a0, w0) ∧ eq_nocase w0 nm ∧
    ((∀ n' a' w', n' ∈ ns → n_name n' = Some (a', w') → eq_nocase w' nm →
                  n' = n) → n0 = n).
Proof.
  intros Hinv Hty Hn Hname Heq.
  pose proof (add_list_item_outcome get_hook_id_from_name
                get_hook_name_from_id m s ty ns id (Some nm) Hinv) as H.
  rewrite (prog_outcome _ _ _ _ Hty) in H. unfold lookup_or_new in H.
  destruct (find_exists (name_match nm) ns n Hn) as [n0 E].
  { apply name_match_nocase. eauto. }
  rewrite E in H. apply find_elem in E as [Hn0 Hm0].
  apply name_match_nocase in Hm0 as (a0 & w0 & Hname0 & Heq0).
  exists n0, a0, w0. split_and!; try done; [|by eauto].
  by apply returns_existing_plain.
Qed.

(** One call on a store that holds [ns]: the process is terminated, or
    the call returns and the store holds [ns] unchanged, or [ns] followed by
    one new item, which is the one returned. *)
Lemma add_list_item_step m s ty ns id name :
  list_inv (heap m) s ty ns →
  add_item (Some s) id name m = Fatal ∨
  ∃ r m', add_item (Some s) id name m = Done r m' ∧
    ((list_inv (heap m') s ty ns ∧ heap m' = heap m ∧
      (r = None ∨ ∃ n, n ∈ ns ∧ r = Some (n_loc n))) ∨
     (∃ n, r = Some (n_loc n) ∧ heap m !! n_loc n = None ∧
           list_inv (heap m') s ty (ns ++ [n]) ∧
           (∀ c, is_Some (heap m !! c) → c ≠ s →
                 Some c ≠ last (n_loc <$> ns) →
                 heap m' !! c = heap m !! c))).
Proof.
  intros Hinv.
  pose proof (add_list_item_outcome get_hook_id_from_name
                get_hook_name_from_id m s ty ns id name Hinv) as H.
  assert (Hl : ∀ f k nm d,
    outcome_of ty ns id name = lookup_or_new f ns k nm d →
    ∃ r m', add_item (Some s) id name m = Done r m' ∧
    ((list_inv (heap m') s ty ns ∧ heap m' = heap m ∧
      (r = None ∨ ∃ n, n ∈ ns ∧ r = Some (n_loc n))) ∨
     (∃ n, r = Some (n_loc n) ∧ heap m !! n_loc n = None ∧
           list_inv (heap m') s ty (ns ++ [n]) ∧
           (∀ c, is_Some (heap m !! c) → c ≠ s →
                 Some c ≠ last (n_loc <$> ns) →
                 heap m' !! c = heap m !! c)))).
  { intros f k nm d E. rewrite E in H. unfold lookup_or_new in H.
    destruct (find f ns) as [n|] eqn:Ef; simpl in H.
    - unfold returns_existing in H.
      eexists _, _. split; [exact H|]. left.
      split; [exact Hinv|]. split; [reflexivity|].
      right. exists n. split; [|done]. by apply find_elem in Ef as [? _].
    - destruct H as (n & h' & Hr & _ & _ & Hfresh & Hinv' & Hfr).
      eexists _, _. split; [exact Hr|]. right. exists n.
      split_and!; [done| |done|done]. apply Hfresh, n_loc_in_node_cells. }
  destruct ty; simpl in H.
  - by left.
  - destruct name as [nm|]; [|by left].
    destruct (id =? 0) eqn:E; [|by left].
    right. eapply Hl. simpl. by rewrite E.
  - right. destruct name as [nm|]; simpl in *.
    + destruct (get_hook_id_from_name nm) as [id'|] eqn:E.
      * by eapply Hl.
      * eexists _, _. split; [exact H|]. left. eauto.
    + by eapply Hl.
  - right. destruct name as [nm|]; by eapply Hl.
  - right. destruct name as [nm|]; simpl in *.
    + destruct (get_hook_id_from_name nm) as [id'|] eqn:E.
      * by eapply Hl.
      * eexists _, _. split; [exact H|]. left. eauto.
    + by eapply Hl.
  - right. destruct name as [nm|]; by eapply Hl.
Qed.

(** A call that returns an item that was not allocated before appended
    it. *)
Lemma add_list_item_new m s ty ns id name r m' :
  list_inv (heap m) s ty ns →
  add_item (Some s) id name m = Done (Some r) m' →
  heap m !! r = None →
  ∃ n, n_loc n = r ∧ list_inv (heap m') s ty (ns ++ [n]).
Proof.
  intros Hinv Hr Hnew.
  destruct (add_list_item_step m s ty ns id name Hinv) as [Hf|(r' & m'' & Hr' & Hcase)].
  { congruence. }
  rewrite Hr in Hr'. injection Hr' as <- <-.
  destruct Hcase as [(_ & _ & [?|(n & Hn & Hrn)])|(n & Hrn & _ & Hinv' & _)].
  - done.
  - injection Hrn as ->. destruct Hinv as (st & _ & _ & Hc & _).
    assert (Hin : n_loc n ∈ cells ns).
    { apply elem_of_cells. exists n. split; [done|apply n_loc_in_node_cells]. }
    destruct (chain_allocated _ _ _ _ Hc Hin). congruence.
  - injection Hrn as ->. eauto.
Qed.

(** C5: in a program store, inserting by id returns an item only if it
    has no name and has that id; when every item with that id has a name,
    a new item with that id and no name is appended. *)
Theorem prog_id_dedup_skips_named_items m s ty ns id :
  list_inv (heap m) s ty ns → is_prog ty →
  (∀ n, n ∈ ns → n_name n = None → n_id n = id →
     ∃ n0, add_item (Some s) id None m = Done (Some (n_loc n0)) m ∧
           n0 ∈ ns ∧ n_name n0 = None ∧ n_id n0 = id) ∧
  ((∀ n, n ∈ ns → n_id n = id → is_Some (n_name n)) →
     ∃ n' h', add_item (Some s) id None m
                = Done (Some (n_loc n')) (mk_mem h' (freed m)) ∧
              n_id n' = id ∧ n_name n' = None ∧
              heap m !! n_loc n' = None ∧
              list_inv h' s ty (ns ++ [n'])).
Proof.
  intros Hinv Hty.
  pose proof (add_list_item_outcome get_hook_id_from_name
                get_hook_name_from_id m s ty ns id None Hinv) as H.
  rewrite (prog_outcome _ _ _ _ Hty) in H. unfold lookup_or_new in H.
  split.
  - intros n Hn Hname Hid.
    destruct (find_exists (pid_match id) ns n Hn) as [n0 E].
    { by apply pid_match_nameless. }
    rewrite E in H. apply returns_existing_plain in H.
    apply find_elem in E as [Hn0 Hm0].
    apply pid_match_nameless in Hm0 as [? ?]. eauto.
  - intros Hnamed. rewrite find_absent in H.
    + destruct H as (n' & h' & Hr & Hid & Hname & Hfresh & Hinv' & _).
      exists n', h'. split_and!; [done|done| | |done].
      * by destruct (n_name n').
      * apply Hfresh, n_loc_in_node_cells.
    + intros n Hn. apply not_true_is_false. rewrite pid_match_nameless.
      intros [Hname Hid]. destruct (Hnamed n Hn Hid) as [x Hx]. congruence.
Qed.

(** C6: on a desktop store, a call with a nonzero id, or without a name,
    terminates the process. *)
Theorem desktop_nonzero_id_or_no_name_is_fatal m s st id name :
  heap m !! s = Some (Store st) → store_type st = LIST_INCLUDE_DESK →
  id ≠ 0 ∨ name = None →
  add_list_item get_hook_id_from_name get_hook_name_from_id
    (Some s) id name m = Fatal.
Proof.
  intros Hs Hty Hbad. unfold add_list_item.
  rewrite (bind_Done _ _ _ _ _ (load_store_Done _ _ _ Hs)).
  rewrite Hty. erewrite bind_Done; [|reflexivity].
  destruct name as [nm|]; [|done].
  erewrite bind_Done; [|reflexivity].
  destruct Hbad as [Hid|?]; [|done].
  apply Z.eqb_neq in Hid. unfold mbind, M_bind, bind, FAIL_IF.
  by rewrite Hid.
Qed.

(** C10: in a program store, a call with both a name and a nonzero id
    does not fail.  Only the name decides whether an item is a duplicate;
    without one, the new item holds a copy of the name and the id as well,
    and a later insertion of that id alone does not return it but appends
    a new item without a name. *)
Theorem prog_name_with_id_keeps_both m s ty ns id nm :
  list_inv (heap m) s ty ns → is_prog ty → id ≠ 0 →
  (∀ n, find (name_match nm) ns = Some n →
     add_item (Some s) id (Some nm) m = Done (Some (n_loc n)) m) ∧
  (find (name_match nm) ns = None →
     ∃ n a h1,
       add_item (Some s) id (Some nm) m
         = Done (Some (n_loc n)) (mk_mem h1 (freed m)) ∧
       n_id n = id ∧ n_name n = Some (a, nm) ∧ heap m !! a = None ∧
       list_inv h1 s ty (ns ++ [n]) ∧
       ((∀ x, x ∈ ns → n_name x = None → n_id x ≠ id) →
          ∃ n2 h2,
            add_item (Some s) id None (mk_mem h1 (freed m))
              = Done (Some (n_loc n2)) (mk_mem h2 (freed m)) ∧
            n_loc n2 ≠ n_loc n ∧ n_id n2 = id ∧ n_name n2 = None ∧
            list_inv h2 s ty (ns ++ [n; n2]))).
Proof.
  intros Hinv Hty _.
  pose proof (add_list_item_outcome get_hook_id_from_name
                get_hook_name_from_id m s ty ns id (Some nm) Hinv) as H.
  rewrite (prog_outcome _ _ _ _ Hty) in H. unfold lookup_or_new in H.
  split.
  - intros n E. rewrite E in H. by apply returns_existing_plain.
  - intros E. rewrite E in H.
    destruct H as (n & h1 & Hr & Hid & Hname & Hfresh & Hinv1 & _).
    destruct (n_name n) as [[a w]|] eqn:En; [|done].
    injection Hname as ->.
    exists n, a, h1. split_and!; [done|done|done| |done|].
    { apply Hfresh. by eapply name_in_node_cells. }
    intros Hnameless.
    pose proof (add_list_item_outcome get_hook_id_from_name
                  get_hook_name_from_id (mk_mem h1 (freed m)) s ty
                  (ns ++ [n]) id None Hinv1) as H2.
    rewrite (prog_outcome _ _ _ _ Hty) in H2. unfold lookup_or_new in H2.
    rewrite find_absent in H2.
    + destruct H2 as (n2 & h2 & Hr2 & Hid2 & Hname2 & Hfresh2 & Hinv2 & _).
      exists n2, h2. rewrite <- app_assoc in Hinv2.
      split_and!; [done| |done| |done].
      * intros Heq. specialize (Hfresh2 _ (n_loc_in_node_cells n2)).
        simpl in Hfresh2. rewrite Heq in Hfresh2.
        destruct Hinv1 as (? & _ & _ & Hc & _).
        destruct (chain_allocated _ _ _ (n_loc n) Hc); [|congruence].
        rewrite cells_app, elem_of_app. right.
        apply elem_of_cells. exists n.
        split; [by apply list_elem_of_singleton|apply n_loc_in_node_cells].
      * by destruct (n_name n2).
    + intros x Hx. apply not_true_is_false. rewrite pid_match_nameless.
      intros [Hxn Hxi]. apply elem_of_app in Hx as [Hx|Hx].
      * by eapply Hnameless.
      * apply list_elem_of_singleton in Hx as ->. congruence.
Qed.

End Claims.

(** C7 (as amended): for a handle that holds NULL, [create_list_store]
    allocates a store with no head and no tail whose kind is the unset
    [LIST_INVALID_TYPE], and makes the handle point to it; nothing else
    changes. *)
Theorem create_list_store_empty_and_kind_unset m out :
  heap m !! out = Some (Handle None) →
  ∃ s h', create_list_store (Some out) m = Done tt (mk_mem h' (freed m)) ∧
          heap m !! s = None ∧
          h' !! out = Some (Handle (Some s)) ∧
          h' !! s = Some (Store (mk_store LIST_INVALID_TYPE None None)) ∧
          list_inv h' s LIST_INVALID_TYPE [] ∧
          (∀ c, c ≠ out → c ≠ s → h' !! c = heap m !! c).
Proof.
  intros Hout. unfold create_list_store.
  rewrite (bind_Done _ _ _ _ _ (load_handle_Done _ _ _ Hout)).
  erewrite bind_Done; [|reflexivity].
  erewrite bind_Done; [|reflexivity].
  set (s := fresh (dom (heap m))).
  assert (Hs : heap m !! s = None) by apply alloc_fresh.
  assert (Hne : s ≠ out) by congruence.
  assert (Hne' : out ≠ s) by congruence.
  rewrite write_Done by (simpl; rewrite lookup_insert_ne; eauto).
  simpl. eexists s, _. split; [reflexivity|]. split; [exact Hs|].
  split; [|split; [|split]].
  - apply lookup_insert_eq.
  - rewrite lookup_insert_ne; [|exact Hne']. apply lookup_insert_eq.
  - eexists. split.
    { rewrite lookup_insert_ne; [|exact Hne']. apply lookup_insert_eq. }
    split; [reflexivity|]. split; [reflexivity|]. split; [reflexivity|].
    apply NoDup_nil_2.
  - intros c ? ?. by rewrite !lookup_insert_ne.
Qed.

(** C7, as stated, fails: the store created for a caller who wants a hook
    include list does not have that kind. *)
Lemma create_list_store_kind_not_requested :
  ¬ creates_with_kind LIST_INCLUDE_HOOK empty_handle_mem 1%positive.
Proof.
  intros (m' & s & st & Hr & Hout & Hs & Hty & _).
  vm_compute in Hr. injection Hr as <-.
  vm_compute in Hout. injection Hout as <-.
  vm_compute in Hs. injection Hs as <-. done.
Qed.

(** C9: [free_list_store] on a handle to a store releases, for each item
    from head to tail, its name and then the item, then the store, and leaves
    NULL in the handle; nothing else changes.  A second call on the handle,
    and a call on any handle that holds NULL or on no handle, do nothing. *)
Theorem free_list_store_releases_in_order_once m i s ty ns :
  heap m !! i = Some (Handle (Some s)) →
  list_inv (heap m) s ty ns →
  (∃ h', free_list_store (Some i) m
           = Done tt (mk_mem h' (freed m ++ cells ns ++ [s])) ∧
         h' !! i = Some (Handle None) ∧
         (∀ c, c ∈ cells ns ++ [s] → h' !! c = None) ∧
         (∀ c, c ∉ cells ns ++ [s] → c ≠ i → h' !! c = heap m !! c) ∧
         (∀ tr, free_list_store (Some i) (mk_mem h' tr)
                  = Done tt (mk_mem h' tr))) ∧
  (∀ m0 j, heap m0 !! j = Some (Handle None) →
           free_list_store (Some j) m0 = Done tt m0) ∧
  (∀ m0, free_list_store None m0 = Done tt m0).
Proof.
  intros Hi Hinv.
  assert (Hnull : ∀ m0 j, heap m0 !! j = Some (Handle None) →
                          free_list_store (Some j) m0 = Done tt m0).
  { intros m0 j Hj. unfold free_list_store.
    by rewrite (bind_Done _ _ _ _ _ (load_handle_Done _ _ _ Hj)). }
  split_and!; [|done|done].
  destruct Hinv as (st & Hs & _ & Hc & _ & Hnd).
  destruct m as [h tr]. simpl in *.
  unfold free_list_store.
  rewrite (bind_Done _ _ _ _ _ (load_handle_Done (mk_mem h tr) _ _ Hi)).
  rewrite (bind_Done _ _ _ _ _ (load_store_Done (mk_mem h tr) _ _ Hs)).
  destruct (free_items_chain ns (store_head st) h tr (S (size h)) Hc Hnd)
    as (h1 & Hr & Hgone & Hkeep).
  { apply chain_length in Hc; [lia|done]. }
  assert (Hsc : s ∉ cells ns).
  { intros Hin.
    destruct (chain_cell_kind _ _ _ _ Hc Hin) as [[? ?]|[? ?]]; congruence. }
  assert (Hic : i ∉ cells ns).
  { intros Hin.
    destruct (chain_cell_kind _ _ _ _ Hc Hin) as [[? ?]|[? ?]]; congruence. }
  assert (His : i ≠ s) by congruence.
  erewrite bind_Done; [|exact Hr].
  erewrite bind_Done;
    [|apply free_Done; simpl; rewrite Hkeep by done; eauto].
  rewrite write_Done
    by (simpl; rewrite lookup_delete_ne by done; rewrite Hkeep by done; eauto).
  simpl. rewrite <- app_assoc.
  eexists. split_and!; [done| | | |].
  - apply lookup_insert_eq.
  - intros c [Hin|Hcs]%elem_of_app.
    + rewrite lookup_insert_ne by congruence.
      rewrite lookup_delete_ne by congruence. by apply Hgone.
    + apply list_elem_of_singleton in Hcs as ->.
      rewrite lookup_insert_ne by done. apply lookup_delete_eq.
  - intros c Hnot Hci. rewrite elem_of_app, list_elem_of_singleton in Hnot.
    rewrite lookup_insert_ne by done.
    rewrite lookup_delete_ne by naive_solver. apply Hkeep. naive_solver.
  - intros tr'. apply Hnull. simpl. apply lookup_insert_eq.
Qed.

(** ** The claims on concrete stores *)

Ltac concrete_inv :=
  eexists; split; [reflexivity|];
  split; [reflexivity|]; split;
  [simpl; repeat first [reflexivity | split | eexists | exact I]
  |split; [reflexivity|apply (bool_decide_unpack _); vm_compute; exact I]].

Lemma hook_mem_inv : list_inv (heap hook_mem) 2%positive LIST_INCLUDE_HOOK hook_nodes.
Proof. concrete_inv. Qed.

Lemma hook_empty_mem_inv : list_inv (heap hook_empty_mem) 2%positive LIST_INCLUDE_HOOK [].
Proof. concrete_inv. Qed.

Lemma prog_mem_inv : list_inv (heap prog_mem) 2%positive LIST_EXCLUDE_PROG prog_nodes.
Proof. concrete_inv. Qed.

Lemma desk_mem_inv : list_inv (heap desk_mem) 2%positive LIST_INCLUDE_DESK [].
Proof. concrete_inv. Qed.

Example insert_keyboard_twice :
  ∃ m1 m2,
    add_list_item demo_hook_id demo_hook_name (Some 2%positive) 2 None
      hook_empty_mem = Done (Some 4%positive) m1 ∧
    add_list_item demo_hook_id demo_hook_name (Some 2%positive) 2 None
      m1 = Done (Some 4%positive) m2 ∧
    traverse 2%positive m2
      = Done [(4%positive, mk_item 2 (Some 3%positive) None)] m2 ∧
    heap m2 !! 3%positive = Some (WStr (wide "WH_KEYBOARD")).
Proof. eexists _, _. split_and!; vm_compute; reflexivity. Qed.

Example insert_notepad_then_pid :
  ∃ m1 m2,
    add_list_item demo_hook_id demo_hook_name (Some 2%positive) 0
      (Some (wide "notepad.exe"))
      (mk_mem {[ 2%positive := Store (mk_store LIST_EXCLUDE_PROG None None) ]} [])
      = Done (Some 3%positive) m1 ∧
    add_list_item demo_hook_id demo_hook_name (Some 2%positive) 1234 None m1
      = Done (Some 5%positive) m2 ∧
    traverse 2%positive m2
      = Done [(3%positive, mk_item 0 (Some 4%positive) (Some 5%positive));
              (5%positive, mk_item 1234 None None)] m2.
Proof. eexists _, _. split_and!; vm_compute; reflexivity. Qed.

Lemma hook_duplicate_id_returns_existing_witness :
  (∃ m', demo_add (Some 2%positive) 2 None hook_mem = Done (Some 3%positive) m' ∧
         heap m' = heap hook_mem) ∧
  (∃ r m1 m2, demo_add (Some 2%positive) 0 (Some (wide "WH_KEYBOARD")) hook_mem
                = Done (Some r) m1 ∧
              demo_add (Some 2%positive) 0 (Some (wide "WH_KEYBOARD")) m1
                = Done (Some r) m2 ∧ heap m2 = heap m1).
Proof.
  split.
  - destruct (hook_duplicate_id_returns_existing demo_hook_id demo_hook_name
                hook_mem 2%positive LIST_INCLUDE_HOOK hook_nodes 2 None 2
                hook_mem_inv (or_introl eq_refl) eq_refl) as [H _].
    destruct (H (mk_node 3%positive 2 (Some (4%positive, wide "WH_KEYBOARD"))))
      as (n0 & m' & Hr & _ & _ & Hh & Hn0).
    + by apply list_elem_of_singleton.
    + reflexivity.
    + rewrite Hn0 in Hr; [eauto|].
      apply (bool_decide_unpack _). vm_compute. exact I.
  - destruct (hook_duplicate_id_returns_existing demo_hook_id demo_hook_name
                hook_mem 2%positive LIST_INCLUDE_HOOK hook_nodes 0
                (Some (wide "WH_KEYBOARD")) 2
                hook_mem_inv (or_introl eq_refl) eq_refl)
      as [_ (n1 & ns1 & m1 & m2 & H1 & H2 & _ & Hh & _)].
    exists (n_loc n1), m1, m2. split; [exact H1|]. split; [exact H2|exact Hh].
Defined.

Lemma hook_unknown_name_returns_no_item_witness :
  demo_add (Some 2%positive) 0 (Some (wide "WH_NOSUCH")) hook_mem
    = Done None hook_mem.
Proof.
  apply (hook_unknown_name_returns_no_item demo_hook_id demo_hook_name
           hook_mem 2%positive
           (mk_store LIST_INCLUDE_HOOK (Some 3%positive) (Some 3%positive))).
  - reflexivity.
  - left. reflexivity.
  - reflexivity.
Defined.

Lemma hook_id_without_name_is_appended_witness :
  ∃ n h', demo_add (Some 2%positive) 99 None hook_mem
            = Done (Some (n_loc n)) (mk_mem h' []) ∧
          n_id n = 99 ∧ n_name n = None ∧
          heap hook_mem !! n_loc n = None ∧
          list_inv h' 2%positive LIST_INCLUDE_HOOK (hook_nodes ++ [n]).
Proof.
  apply (hook_id_without_name_is_appended demo_hook_id demo_hook_name
           hook_mem 2%positive LIST_INCLUDE_HOOK hook_nodes 99).
  - exact hook_mem_inv.
  - left. reflexivity.
  - reflexivity.
  - intros n Hn. apply list_elem_of_singleton in Hn as ->. simpl. lia.
Defined.

Lemma prog_name_dedup_ignores_case_witness :
  ∃ n0, demo_add (Some 2%positive) 0 (Some (wide "foo.exe")) prog_mem
          = Done (Some (n_loc n0)) prog_mem ∧
        n0 ∈ prog_nodes ∧
        ∃ a0 w0, n_name n0 = Some (a0, w0) ∧ eq_nocase w0 (wide "foo.exe").
Proof.
  destruct (prog_name_dedup_ignores_case demo_hook_id demo_hook_name
              prog_mem 2%positive LIST_EXCLUDE_PROG prog_nodes 0
              (wide "foo.exe")
              (mk_node 3%positive 0 (Some (4%positive, wide "Foo.exe")))
              4%positive (wide "Foo.exe"))
    as (n0 & a0 & w0 & Hr & Hin & Hname & Heq & _).
  - exact prog_mem_inv.
  - right. reflexivity.
  - apply elem_of_cons. by left.
  - reflexivity.
  - reflexivity.
  - eauto 10.
Defined.

Lemma prog_id_dedup_skips_named_items_witness :
  (∃ n0, demo_add (Some 2%positive) 1234 None prog_mem
           = Done (Some (n_loc n0)) prog_mem ∧
         n0 ∈ prog_nodes ∧ n_name n0 = None ∧ n_id n0 = 1234) ∧
  (∃ n' h', demo_add (Some 2%positive) 77 None prog_mem
              = Done (Some (n_loc n')) (mk_mem h' []) ∧
            n_id n' = 77 ∧ n_name n' = None ∧
            heap prog_mem !! n_loc n' = None ∧
            list_inv h' 2%positive LIST_EXCLUDE_PROG (prog_nodes ++ [n'])).
Proof.
  split.
  - destruct (prog_id_dedup_skips_named_items demo_hook_id demo_hook_name
                prog_mem 2%positive LIST_EXCLUDE_PROG prog_nodes 1234
                prog_mem_inv (or_intror eq_refl)) as [H _].
    apply (H (mk_node 5%positive 1234 None)).
    + apply elem_of_cons. right. apply elem_of_cons. by left.
    + reflexivity.
    + reflexivity.
  - destruct (prog_id_dedup_skips_named_items demo_hook_id demo_hook_name
                prog_mem 2%positive LIST_EXCLUDE_PROG prog_nodes 77
                prog_mem_inv (or_intror eq_refl)) as [_ H].
    apply H. intros n Hn Hid.
    repeat (apply elem_of_cons in Hn as [->|Hn]; [by (simpl in Hid; try lia; eauto)|]).
    by apply elem_of_nil in Hn.
Defined.

Lemma desktop_nonzero_id_or_no_name_is_fatal_witness :
  demo_add (Some 2%positive) 5 (Some (wide "Default")) desk_mem = Fatal ∧
  demo_add (Some 2%positive) 0 None desk_mem = Fatal.
Proof.
  split.
  - apply (desktop_nonzero_id_or_no_name_is_fatal demo_hook_id demo_hook_name
             desk_mem 2%positive (mk_store LIST_INCLUDE_DESK None None)).
    + reflexivity.
    + reflexivity.
    + left. lia.
  - apply (desktop_nonzero_id_or_no_name_is_fatal demo_hook_id demo_hook_name
             desk_mem 2%positive (mk_store LIST_INCLUDE_DESK None None)).
    + reflexivity.
    + reflexivity.
    + right. reflexivity.
Defined.

Lemma prog_name_with_id_keeps_both_witness :
  ∃ n a h1,
    demo_add (Some 2%positive) 4321 (Some (wide "calc.exe")) prog_mem
      = Done (Some (n_loc n)) (mk_mem h1 []) ∧
    n_id n = 4321 ∧ n_name n = Some (a, wide "calc.exe") ∧
    ∃ n2 h2,
      demo_add (Some 2%positive) 4321 None (mk_mem h1 [])
        = Done (Some (n_loc n2)) (mk_mem h2 []) ∧
      n_loc n2 ≠ n_loc n ∧ n_id n2 = 4321 ∧ n_name n2 = None ∧
      list_inv h2 2%positive LIST_EXCLUDE_PROG (prog_nodes ++ [n; n2]).
Proof.
  destruct (prog_name_with_id_keeps_both demo_hook_id demo_hook_name
              prog_mem 2%positive LIST_EXCLUDE_PROG prog_nodes 4321
              (wide "calc.exe") prog_mem_inv (or_intror eq_refl)) as [_ H].
  - lia.
  - destruct H as (n & a & h1 & Hr & Hid & Hname & _ & _ & Hlater).
    + reflexivity.
    + exists n, a, h1. split_and!; [done..|].
      apply Hlater. intros x Hx Hnameless.
      repeat (apply elem_of_cons in Hx as [->|Hx]; [by (simpl in *; try lia)|]).
      by apply elem_of_nil in Hx.
Defined.

Lemma create_list_store_empty_and_kind_unset_witness :
  ∃ s h', create_list_store (Some 1%positive) empty_handle_mem
            = Done tt (mk_mem h' []) ∧
          h' !! 1%positive = Some (Handle (Some s)) ∧
          h' !! s = Some (Store (mk_store LIST_INVALID_TYPE None None)).
Proof.
  destruct (create_list_store_empty_and_kind_unset empty_handle_mem 1%positive)
    as (s & h' & Hr & _ & Hout & Hs & _).
  - reflexivity.
  - eauto.
Defined.

Lemma free_list_store_releases_in_order_once_witness :
  ∃ h', free_list_store (Some 1%positive) hook_mem
          = Done tt (mk_mem h' [4%positive; 3%positive; 2%positive]) ∧
        h' !! 1%positive = Some (Handle None) ∧
        free_list_store (Some 1%positive)
          (mk_mem h' [4%positive; 3%positive; 2%positive])
          = Done tt (mk_mem h' [4%positive; 3%positive; 2%positive]).
Proof.
  destruct (free_list_store_releases_in_order_once hook_mem 1%positive
              2%positive LIST_INCLUDE_HOOK hook_nodes)
    as [(h' & Hr & Hi & _ & _ & Hagain) _].
  - reflexivity.
  - exact hook_mem_inv.
  - exists h'. split_and!; [exact Hr|exact Hi|apply Hagain].
Defined.

(** * Further properties of list.c *)

(** ** The outcome of a call, by cases *)

Lemma eq_nocase_refl w : eq_nocase w w.
Proof. reflexivity. Qed.

Lemma eq_nocase_sym a b : eq_nocase a b → eq_nocase b a.
Proof. unfold eq_nocase. congruence. Qed.

Lemma name_text n nm :
  snd <$> n_name n = Some nm → ∃ a, n_name n = Some (a, nm).
Proof.
  destruct (n_name n) as [[a w]|]; simpl; [|done]. intros [= ->]. eauto.
Qed.

Lemma name_absent n : snd <$> n_name n = None → n_name n = None.
Proof. by destruct (n_name n). Qed.

(** Whatever the sequence, a call ends the process, or returns NULL, or
    scans with a test [f] for an item with id [k] and name [nm]; an item with
    these is found by [f], and an item that [f] rejects is no duplicate of
    it. *)
Lemma add_outcome_cases gid gname ty id name :
  (∀ ns, add_outcome gid gname ty ns id name = OFatal) ∨
  (∀ ns, add_outcome gid gname ty ns id name = ONoItem) ∨
  ∃ f k nm d,
    (∀ ns, add_outcome gid gname ty ns id name = lookup_or_new f ns k nm d) ∧
    (∀ n, n_id n = k → snd <$> n_name n = nm → f n = true) ∧
    (∀ x n, f x = false → n_id n = k → snd <$> n_name n = nm →
            ¬ duplicates ty x n ∧ ¬ duplicates ty n x).
Proof.
  assert (Hhook : ∀ k nm, ty = LIST_INCLUDE_HOOK ∨ ty = LIST_EXCLUDE_HOOK →
    (∀ n, n_id n = k → snd <$> n_name n = nm → hook_match k n = true) ∧
    (∀ x n, hook_match k x = false → n_id n = k → snd <$> n_name n = nm →
            ¬ duplicates ty x n ∧ ¬ duplicates ty n x)).
  { intros k nm Hty. split.
    - intros n Hid _. by apply hook_match_id.
    - intros x n Hx Hid _. apply not_true_iff_false in Hx.
      rewrite hook_match_id in Hx.
      destruct Hty as [-> | ->]; simpl; split; congruence. }
  assert (Hname : ∀ k nm, ty ≠ LIST_INVALID_TYPE →
    (∀ n, n_id n = k → snd <$> n_name n = Some nm → name_match nm n = true) ∧
    (∀ x n, name_match nm x = false → n_id n = k →
            snd <$> n_name n = Some nm →
            ty = LIST_INCLUDE_PROG ∨ ty = LIST_EXCLUDE_PROG ∨
              ty = LIST_INCLUDE_DESK →
            ¬ duplicates ty x n ∧ ¬ duplicates ty n x)).
  { intros k nm _. split.
    - intros n _ Hnm. apply name_text in Hnm as [a Hnm].
      apply name_match_nocase. eauto using eq_nocase_refl.
    - intros x n Hx _ Hnm Hty. apply name_text in Hnm as [a Hnm].
      apply not_true_iff_false in Hx. rewrite name_match_nocase in Hx.
      assert (∀ b w, n_name x = Some (b, w) → ¬ eq_nocase w nm) by naive_solver.
      assert (∀ b w, n_name x = Some (b, w) → ¬ eq_nocase nm w).
      { intros b w E He. apply eq_nocase_sym in He. naive_solver. }
      destruct Hty as [-> | [-> | ->]]; simpl; rewrite Hnm;
        destruct (n_name x) as [[b w]|]; naive_solver. }
  assert (Hpid : ∀ k, ty = LIST_INCLUDE_PROG ∨ ty = LIST_EXCLUDE_PROG →
    (∀ n, n_id n = k → snd <$> n_name n = None → pid_match k n = true) ∧
    (∀ x n, pid_match k x = false → n_id n = k → snd <$> n_name n = None →
            ¬ duplicates ty x n ∧ ¬ duplicates ty n x)).
  { intros k Hty. split.
    - intros n Hid Hnm. apply name_absent in Hnm. by apply pid_match_nameless.
    - intros x n Hx Hid Hnm. apply name_absent in Hnm.
      apply not_true_iff_false in Hx. rewrite pid_match_nameless in Hx.
      destruct Hty as [-> | ->]; simpl; rewrite Hnm;
        destruct (n_name x) as [[b w]|]; naive_solver. }
  destruct ty; simpl.
  - by left.
  - destruct name as [nm|]; [|by left].
    destruct (id =? 0); [|by left].
    right. right. eexists _, _, _, _. split; [done|].
    destruct (Hname id nm) as [H1 H2]; [done|]. split; [done|]. eauto.
  - destruct name as [nm|].
    + destruct (gid nm) as [k|]; [|by right; left].
      right. right. eexists _, _, _, _. split; [done|]. apply Hhook; eauto.
    + right. right. eexists _, _, _, _. split; [done|]. apply Hhook; eauto.
  - right. right. destruct name as [nm|].
    + eexists _, _, _, _. split; [done|].
      destruct (Hname id nm) as [H1 H2]; [done|]. split; [done|]. eauto.
    + eexists _, _, _, _. split; [done|]. apply Hpid; eauto.
  - destruct name as [nm|].
    + destruct (gid nm) as [k|]; [|by right; left].
      right. right. eexists _, _, _, _. split; [done|]. apply Hhook; eauto.
    + right. right. eexists _, _, _, _. split; [done|]. apply Hhook; eauto.
  - right. right. destruct name as [nm|].
    + eexists _, _, _, _. split; [done|].
      destruct (Hname id nm) as [H1 H2]; [done|]. split; [done|]. eauto.
    + eexists _, _, _, _. split; [done|]. apply Hpid; eauto.
Qed.

Lemma lookup_or_new_not_fatal f ns k nm d :
  lookup_or_new f ns k nm d ≠ OFatal ∧ lookup_or_new f ns k nm d ≠ ONoItem.
Proof. unfold lookup_or_new. by destruct (find f ns). Qed.

Lemma no_duplicates_snoc ty ns n :
  no_duplicates ty ns →
  (∀ x, x ∈ ns → ¬ duplicates ty x n ∧ ¬ duplicates ty n x) →
  no_duplicates ty (ns ++ [n]).
Proof.
  intros Hnd Hn i j x y Hi Hj Hd.
  apply lookup_snoc_Some in Hi as [[Hil Hi]|[-> <-]];
    apply lookup_snoc_Some in Hj as [[Hjl Hj]|[-> <-]].
  - by eapply Hnd.
  - apply list_elem_of_lookup_2 in Hi. by destruct (Hn x Hi).
  - apply list_elem_of_lookup_2 in Hj. by destruct (Hn y Hj).
  - done.
Qed.

(** ** Insertion, kind by kind *)

Section Insertion.
Variable get_hook_id_from_name : wstring → option Z.
Variable get_hook_name_from_id : Z → option wstring.

(** [add_item] is [add_list_item] with the hook directory of the section. *)
Abbreviation add_item :=
  (add_list_item get_hook_id_from_name get_hook_name_from_id).

(** X1: insertion terminates the process exactly when the kind of the store is
    unset, or the store is a desktop list and the name is missing or the id is
    not zero; in every other case it returns, so on hook and program lists it
    always returns. *)
Theorem add_list_item_fatal_iff m s ty ns id name :
  list_inv (heap m) s ty ns →
  (add_list_item get_hook_id_from_name get_hook_name_from_id
     (Some s) id name m = Fatal ↔
   ty = LIST_INVALID_TYPE ∨
   ty = LIST_INCLUDE_DESK ∧ (name = None ∨ id ≠ 0)) ∧
  (¬ (ty = LIST_INVALID_TYPE ∨
      ty = LIST_INCLUDE_DESK ∧ (name = None ∨ id ≠ 0)) →
   ∃ r m', add_list_item get_hook_id_from_name get_hook_name_from_id
             (Some s) id name m = Done r m') ∧
  (is_hook ty ∨ is_prog ty →
   ∃ r m', add_list_item get_hook_id_from_name get_hook_name_from_id
             (Some s) id name m = Done r m').
Proof.
  intros Hinv.
  assert (Hiff : add_item (Some s) id name m = Fatal ↔
                 ty = LIST_INVALID_TYPE ∨
                 ty = LIST_INCLUDE_DESK ∧ (name = None ∨ id ≠ 0)).
  { pose proof (add_list_item_outcome get_hook_id_from_name
                    get_hook_name_from_id m s ty ns id name Hinv) as H.
      assert (Hl : ∀ f k nm d,
        add_post m s ty ns (lookup_or_new f ns k nm d) (add_item (Some s) id name m) →
        add_item (Some s) id name m ≠ Fatal).
      { intros f k nm d. unfold lookup_or_new.
        destruct (find f ns); simpl.
        - unfold returns_existing. congruence.
        - intros (? & ? & Hr & _). congruence. }
      destruct ty; simpl in H.
      - split; [by left|done].
      - destruct name as [nm|]; [|split; [right; eauto|done]].
        destruct (id =? 0) eqn:E.
        + apply Z.eqb_eq in E. apply Hl in H. split; [done|].
          intros [?|[_ [?|?]]]; done.
        + apply Z.eqb_neq in E. split; [right; eauto|done].
      - split; [|intros [?|[? _]]; done].
        destruct name as [nm|]; [destruct (get_hook_id_from_name nm)|];
          simpl in H; try (by apply Hl in H). congruence.
      - split; [|intros [?|[? _]]; done].
        destruct name as [nm|]; by apply Hl in H.
      - split; [|intros [?|[? _]]; done].
        destruct name as [nm|]; [destruct (get_hook_id_from_name nm)|];
          simpl in H; try (by apply Hl in H). congruence.
      - split; [|intros [?|[? _]]; done].
        destruct name as [nm|]; by apply Hl in H. }
  assert (Hret : ¬ (ty = LIST_INVALID_TYPE ∨
                    ty = LIST_INCLUDE_DESK ∧ (name = None ∨ id ≠ 0)) →
                 ∃ r m', add_item (Some s) id name m = Done r m').
  { intros Hok.
    destruct (add_list_item_step get_hook_id_from_name get_hook_name_from_id
                m s ty ns id name Hinv) as [Hf|(r & m' & Hr & _)]; [|eauto].
    by apply Hiff in Hf. }
  split; [exact Hiff|]. split; [exact Hret|].
  intros Hty. apply Hret.
  unfold is_hook, is_prog in Hty. intros [->|[-> _]]; naive_solver.
Qed.

(** X2: insertion returns NULL exactly when the store is a hook list and the
    name that was given is unknown to the directory. *)
Theorem add_list_item_null_iff m s ty ns id name :
  list_inv (heap m) s ty ns →
  (∃ m', add_list_item get_hook_id_from_name get_hook_name_from_id
           (Some s) id name m = Done None m') ↔
  is_hook ty ∧ ∃ nm, name = Some nm ∧ get_hook_id_from_name nm = None.
Proof.
  intros Hinv.
  pose proof (add_list_item_outcome get_hook_id_from_name
                get_hook_name_from_id m s ty ns id name Hinv) as H.
  assert (Hl : ∀ f k nm d,
    add_post m s ty ns (lookup_or_new f ns k nm d) (add_item (Some s) id name m) →
    ¬ ∃ m', add_item (Some s) id name m = Done None m').
  { intros f k nm d. unfold lookup_or_new.
    destruct (find f ns); simpl.
    - unfold returns_existing. intros Hr [m' Hm']. congruence.
    - intros (? & ? & Hr & _) [m' Hm']. congruence. }
  assert (Hnh : ∀ P : Prop, ¬ is_hook LIST_INCLUDE_PROG ∧
                 ¬ is_hook LIST_EXCLUDE_PROG ∧ ¬ is_hook LIST_INCLUDE_DESK ∧
                 ¬ is_hook LIST_INVALID_TYPE).
  { intros _. unfold is_hook. naive_solver. }
  destruct (Hnh True) as (Hp1 & Hp2 & Hd & Hi).
  destruct ty; simpl in H.
  - split; [intros [m' Hm']; congruence|naive_solver].
  - split; [|naive_solver].
    destruct name as [nm|]; [|intros [m' Hm']; congruence].
    destruct (id =? 0); [by intros ?%(Hl _ _ _ _ H)|].
    intros [m' Hm']; congruence.
  - destruct name as [nm|].
    + destruct (get_hook_id_from_name nm) eqn:E; simpl in H.
      * split; [by intros ?%(Hl _ _ _ _ H)|]. intros [_ (? & [= <-] & ?)].
        congruence.
      * split; [|eauto]. intros _. split; [by left|eauto].
    + split; [by intros ?%(Hl _ _ _ _ H)|]. by intros [_ (? & ? & _)].
  - split; [|naive_solver]. destruct name; by intros ?%(Hl _ _ _ _ H).
  - destruct name as [nm|].
    + destruct (get_hook_id_from_name nm) eqn:E; simpl in H.
      * split; [by intros ?%(Hl _ _ _ _ H)|]. intros [_ (? & [= <-] & ?)].
        congruence.
      * split; [|eauto]. intros _. split; [by right|eauto].
    + split; [by intros ?%(Hl _ _ _ _ H)|]. by intros [_ (? & ? & _)].
  - split; [|naive_solver]. destruct name; by intros ?%(Hl _ _ _ _ H).
Qed.

(** X3: in a hook list a name stands for its id: the id that is passed along
    with a known name is ignored, and when no item has the id of the name a new
    item is appended with that id and a fresh copy of the name. *)
Theorem hook_name_resolves_to_id m s ty ns id nm k :
  list_inv (heap m) s ty ns → is_hook ty →
  get_hook_id_from_name nm = Some k →
  (∀ n, n ∈ ns → n_id n ≠ k) →
  ∃ n a h',
    add_list_item get_hook_id_from_name get_hook_name_from_id
      (Some s) id (Some nm) m = Done (Some (n_loc n)) (mk_mem h' (freed m)) ∧
    n_id n = k ∧ n_name n = Some (a, nm) ∧ heap m !! a = None ∧
    list_inv h' s ty (ns ++ [n]).
Proof.
  intros Hinv Hty Hk Hnew.
  pose proof (add_list_item_outcome get_hook_id_from_name
                get_hook_name_from_id m s ty ns id (Some nm) Hinv) as H.
  rewrite (hook_outcome _ _ _ _ _ _ k Hty) in H by done.
  unfold lookup_or_new in H. rewrite find_absent in H.
  - destruct H as (n & h' & Hr & Hid & Hname & Hfresh & Hinv' & _).
    apply name_text in Hname as [a Hname].
    exists n, a, h'. split_and!; try done.
    apply Hfresh. by eapply name_in_node_cells.
  - intros n Hn. apply not_true_is_false. rewrite hook_match_id. by apply Hnew.
Qed.

(** X4: in a hook list, when the directory has a name for the id that is
    inserted, a new item carries that name and nothing is released; when the
    id is already in the list the buffer of the name is released again, which
    leaves the heap as it was before the call. *)
Theorem hook_resolved_name_kept_or_released m s ty ns id w :
  list_inv (heap m) s ty ns → is_hook ty →
  get_hook_name_from_id id = Some w →
  ((∀ n, n ∈ ns → n_id n ≠ id) →
     ∃ n a h',
       add_list_item get_hook_id_from_name get_hook_name_from_id
         (Some s) id None m = Done (Some (n_loc n)) (mk_mem h' (freed m)) ∧
       n_id n = id ∧ n_name n = Some (a, w) ∧ heap m !! a = None ∧
       list_inv h' s ty (ns ++ [n])) ∧
  (∀ n, n ∈ ns → n_id n = id →
     ∃ n0, n0 ∈ ns ∧ n_id n0 = id ∧
       add_list_item get_hook_id_from_name get_hook_name_from_id
         (Some s) id None m
         = Done (Some (n_loc n0))
             (mk_mem (heap m) (freed m ++ [fresh (dom (heap m))])) ∧
       heap m !! fresh (dom (heap m)) = None).
Proof.
  intros Hinv Hty Hw.
  pose proof (add_list_item_outcome get_hook_id_from_name
                get_hook_name_from_id m s ty ns id None Hinv) as H.
  rewrite (hook_outcome _ _ _ _ _ _ id Hty) in H by done.
  unfold lookup_or_new in H. rewrite Hw in H. split.
  - intros Hnew. rewrite find_absent in H.
    + destruct H as (n & h' & Hr & Hid & Hname & Hfresh & Hinv' & _).
      apply name_text in Hname as [a Hname].
      exists n, a, h'. split_and!; try done.
      apply Hfresh. by eapply name_in_node_cells.
    + intros n Hn. apply not_true_is_false. rewrite hook_match_id.
      by apply Hnew.
  - intros n Hn Hid.
    destruct (find_exists (hook_match id) ns n Hn) as [n0 E];
      [by apply hook_match_id|].
    rewrite E in H. apply find_elem in E as [Hn0 Hm0].
    apply hook_match_id in Hm0.
    exists n0. split_and!; [done|done|exact H|apply alloc_fresh].
Qed.

(** X5: in a desktop list a name that equals the name of an item up to letter
    case returns an item with such a name and changes nothing; any other name
    is appended as a new item with id 0 and a fresh copy of the name. *)
Theorem desktop_name_dedup_or_append m s ns nm :
  list_inv (heap m) s LIST_INCLUDE_DESK ns →
  (∀ n a w, n ∈ ns → n_name n = Some (a, w) → eq_nocase w nm →
     ∃ n0 a0 w0,
       add_list_item get_hook_id_from_name get_hook_name_from_id
         (Some s) 0 (Some nm) m = Done (Some (n_loc n0)) m ∧
       n0 ∈ ns ∧ n_name n0 = Some (a0, w0) ∧ eq_nocase w0 nm) ∧
  ((∀ n a w, n ∈ ns → n_name n = Some (a, w) → ¬ eq_nocase w nm) →
     ∃ n a h',
       add_list_item get_hook_id_from_name get_hook_name_from_id
         (Some s) 0 (Some nm) m = Done (Some (n_loc n)) (mk_mem h' (freed m)) ∧
       n_id n = 0 ∧ n_name n = Some (a, nm) ∧ heap m !! a = None ∧
       list_inv h' s LIST_INCLUDE_DESK (ns ++ [n])).
Proof.
  intros Hinv.
  pose proof (add_list_item_outcome get_hook_id_from_name
                get_hook_name_from_id m s _ ns 0 (Some nm) Hinv) as H.
  simpl in H. unfold lookup_or_new in H. split.
  - intros n a w Hn Hname Heq.
    destruct (find_exists (name_match nm) ns n Hn) as [n0 E].
    { apply name_match_nocase. eauto. }
    rewrite E in H. apply returns_existing_plain in H.
    apply find_elem in E as [Hn0 Hm0].
    apply name_match_nocase in Hm0 as (a0 & w0 & Hname0 & Heq0).
    exists n0, a0, w0. done.
  - intros Hnew. rewrite find_absent in H.
    + destruct H as (n & h' & Hr & Hid & Hname & Hfresh & Hinv' & _).
      apply name_text in Hname as [a Hname].
      exists n, a, h'. split_and!; try done.
      apply Hfresh. by eapply name_in_node_cells.
    + intros n Hn. apply not_true_is_false. rewrite name_match_nocase.
      intros (a & w & Hname & Heq). by eapply Hnew.
Qed.

(** X6: insertion keeps a list free of duplicates: when no two items of the
    store are duplicates under the rule of its kind, a call that returns
    leaves a store of which this still holds. *)
Theorem add_list_item_keeps_no_duplicates m s ty ns id name :
  list_inv (heap m) s ty ns → no_duplicates ty ns →
  add_list_item get_hook_id_from_name get_hook_name_from_id
    (Some s) id name m = Fatal ∨
  ∃ r m' ns',
    add_list_item get_hook_id_from_name get_hook_name_from_id
      (Some s) id name m = Done r m' ∧
    list_inv (heap m') s ty ns' ∧ no_duplicates ty ns'.
Proof.
  intros Hinv Hnd.
  pose proof (add_list_item_outcome get_hook_id_from_name
                get_hook_name_from_id m s ty ns id name Hinv) as H.
  destruct (add_outcome_cases get_hook_id_from_name get_hook_name_from_id
              ty id name) as [E|[E|(f & k & nm & d & E & _ & Hf)]];
    rewrite E in H; simpl in H.
  - by left.
  - right. eexists _, _, ns. split; [exact H|done].
  - right. unfold lookup_or_new in H.
    destruct (find f ns) as [n0|] eqn:Ef; simpl in H.
    + eexists _, _, ns. split; [exact H|done].
    + destruct H as (n & h' & Hr & Hid & Hname & _ & Hinv' & _).
      eexists _, _, (ns ++ [n]). split; [exact Hr|]. split; [done|].
      apply no_duplicates_snoc; [done|].
      intros x Hx. apply Hf; [|done|done]. by eapply find_none_elem.
Qed.

(** X7: insertion is idempotent for every kind of list: the call that follows
    a call with the same id and name returns what that one returned, and
    leaves the heap as that one left it. *)
Theorem add_list_item_twice m s ty ns id name :
  list_inv (heap m) s ty ns →
  add_list_item get_hook_id_from_name get_hook_name_from_id
    (Some s) id name m = Fatal ∨
  ∃ r m1 m2,
    add_list_item get_hook_id_from_name get_hook_name_from_id
      (Some s) id name m = Done r m1 ∧
    add_list_item get_hook_id_from_name get_hook_name_from_id
      (Some s) id name m1 = Done r m2 ∧
    heap m2 = heap m1.
Proof.
  intros Hinv.
  pose proof (add_list_item_outcome get_hook_id_from_name
                get_hook_name_from_id m s ty ns id name Hinv) as H.
  destruct (add_outcome_cases get_hook_id_from_name get_hook_name_from_id
              ty id name) as [E|[E|(f & k & nm & d & E & Hfn & _)]].
  - rewrite E in H. by left.
  - rewrite E in H. simpl in H. right. exists None, m, m. by rewrite H.
  - right. rewrite E in H. unfold lookup_or_new in H.
    destruct (find f ns) as [n0|] eqn:Ef; simpl in H.
    + unfold returns_existing in H.
      match type of H with _ = Done _ ?m' => set (m1 := m') in H end.
      assert (Hinv1 : list_inv (heap m1) s ty ns) by done.
      pose proof (add_list_item_outcome get_hook_id_from_name
                    get_hook_name_from_id m1 s ty ns id name Hinv1) as H1.
      rewrite E in H1. unfold lookup_or_new in H1. rewrite Ef in H1.
      eexists _, m1, _. split; [exact H|]. split; [exact H1|done].
    + destruct H as (n & h1 & Hr & Hid & Hname & _ & Hinv1 & _).
      pose proof (add_list_item_outcome get_hook_id_from_name
                    get_hook_name_from_id (mk_mem h1 (freed m)) s ty
                    (ns ++ [n]) id name Hinv1) as H1.
      rewrite E in H1. unfold lookup_or_new in H1.
      rewrite (find_snoc _ _ _ Ef) in H1 by by apply Hfn.
      eexists _, _, _. split; [exact Hr|]. split; [exact H1|done].
Qed.
End Insertion.

(** ** What a call that returns has done to the heap *)

Lemma bind_inv {A B} (c : M A) (k : A → M B) m b m' :
  (c ≫= k) m = Done b m' → ∃ a m1, c m = Done a m1 ∧ k a m1 = Done b m'.
Proof. unfold mbind, M_bind, bind. destruct (c m); [eauto|done..]. Qed.

Lemma load_store_inv p m st m' :
  load_store p m = Done st m' → m' = m ∧ heap m !! p = Some (Store st).
Proof.
  unfold load_store. destruct (heap m !! p) as [[]|]; try done.
  by intros [= -> ->].
Qed.

Lemma load_item_inv p m it m' :
  load_item p m = Done it m' → m' = m ∧ heap m !! p = Some (Item it).
Proof.
  unfold load_item. destruct (heap m !! p) as [[]|]; try done.
  by intros [= -> ->].
Qed.

Lemma load_wstr_inv p m w m' :
  load_wstr p m = Done w m' → m' = m.
Proof.
  unfold load_wstr. destruct (heap m !! p) as [[]|]; try done.
  by intros [= -> ->].
Qed.

Lemma FAIL_IF_inv b m u m' : FAIL_IF b m = Done u m' → b = false ∧ m' = m.
Proof. unfold FAIL_IF. destruct b; [done|]. by intros [= _ ->]. Qed.

Lemma write_inv p c m u m' :
  write p c m = Done u m' →
  is_Some (heap m !! p) ∧ m' = mk_mem (<[p := c]> (heap m)) (freed m).
Proof.
  unfold write. destruct (heap m !! p) eqn:E; [|done].
  intros [= _ <-]. eauto.
Qed.

(** The duplicate tests and the scans leave the memory as it is. *)
Lemma find_item_mem matches :
  (∀ it m b m', matches it m = Done b m' → m' = m) →
  ∀ fuel p m r m', find_item fuel matches p m = Done r m' → m' = m.
Proof.
  intros Hm. induction fuel as [|fuel IH]; intros p m r m'; simpl; [done|].
  destruct p as [a|]; [|by intros [= _ ->]].
  intros (it & m1 & H1 & H2)%bind_inv. apply load_item_inv in H1 as [-> _].
  apply bind_inv in H2 as (b & m2 & H2 & H3). apply Hm in H2 as ->.
  destruct b; [by injection H3 as _ ->|by eapply IH].
Qed.

Lemma scan_mem matches p m r m' :
  (∀ it m b m', matches it m = Done b m' → m' = m) →
  scan matches p m = Done r m' → m' = m.
Proof. intros Hm. unfold scan, bounded_walk. by apply find_item_mem. Qed.

Lemma hook_id_in_list_mem id it m b m' :
  hook_id_in_list id it m = Done b m' → m' = m.
Proof. by intros [= _ ->]. Qed.

Lemma pid_in_list_mem id it m b m' :
  pid_in_list id it m = Done b m' → m' = m.
Proof. by intros [= _ ->]. Qed.

Lemma name_in_list_mem nm it m b m' :
  name_in_list nm it m = Done b m' → m' = m.
Proof.
  unfold name_in_list. destruct (item_name it); [|by intros [= _ ->]].
  intros (w & m1 & H1 & H2)%bind_inv. apply load_wstr_inv in H1 as ->.
  by injection H2 as _ ->.
Qed.

(** The append step allocates and releases nothing, and keeps the name of
    the item it links. *)
Lemma append_item_effect s a m u m' :
  append_item s a m = Done u m' →
  freed m' = freed m ∧
  (∀ c, is_Some (heap m' !! c) ↔ is_Some (heap m !! c)) ∧
  (∀ it, heap m !! a = Some (Item it) →
         ∃ it', heap m' !! a = Some (Item it') ∧ item_name it' = item_name it).
Proof.
  unfold append_item. intros (st & m1 & H1 & H2)%bind_inv.
  apply load_store_inv in H1 as [-> Hs].
  assert (Hdom : ∀ p c (h : gmap loc cell) x, is_Some (h !! p) →
            is_Some (<[p := c]> h !! x) ↔ is_Some (h !! x)).
  { intros p c h x Hp. destruct (decide (p = x)) as [->|].
    - rewrite lookup_insert_eq. naive_solver.
    - by rewrite lookup_insert_ne. }
  destruct (store_head st).
  - destruct (store_tail st) as [t|]; [|done].
    apply bind_inv in H2 as (last & m1 & H1 & H2).
    apply load_item_inv in H1 as [-> Ht].
    apply bind_inv in H2 as (? & m1 & H1 & H2).
    apply write_inv in H1 as [Ht' ->]. apply write_inv in H2 as [Hs' ->].
    simpl in *. split; [done|]. split.
    + intros c. rewrite Hdom by done. by apply Hdom.
    + intros it Ha. assert (s ≠ a) by congruence.
      rewrite lookup_insert_ne by done.
      destruct (decide (t = a)) as [->|].
      * rewrite lookup_insert_eq. eexists. split; [done|]. simpl. congruence.
      * rewrite lookup_insert_ne by done. eauto.
  - apply write_inv in H2 as [Hs' ->]. simpl. split; [done|]. split.
    + intros c. by apply Hdom.
    + intros it Ha. assert (s ≠ a) by congruence.
      rewrite lookup_insert_ne by done. eauto.
Qed.

(** [new_item] returns an item at an address that was free; it releases
    nothing, and what it allocates is that item and, without a [hookname], the
    copy of the name that it stores in the item. *)
Lemma new_item_effect s id name hookname m r m' :
  new_item s id name hookname m = Done r m' →
  freed m' = freed m ∧
  ∃ it, r = Some (fresh (dom (heap m))) ∧
        heap m' !! fresh (dom (heap m)) = Some (Item it) ∧
        (∀ k, hookname = Some k → item_name it = Some k) ∧
        (∀ c, is_Some (heap m !! c) → is_Some (heap m' !! c)) ∧
        (∀ c, heap m !! c = None → is_Some (heap m' !! c) →
              c = fresh (dom (heap m)) ∨ item_name it = Some c).
Proof.
  unfold new_item. intros (a & m1 & H1 & H2)%bind_inv.
  unfold must_calloc_item, alloc in H1. injection H1 as <- <-.
  set (a := fresh (dom (heap m))) in *.
  assert (Ha : heap m !! a = None) by apply alloc_fresh.
  apply bind_inv in H2 as (nm & m2 & H2 & H3).
  apply bind_inv in H3 as (? & m3 & H3 & H4).
  apply write_inv in H3 as [_ ->].
  apply bind_inv in H4 as (? & m4 & H4 & H5).
  injection H5 as <- <-.
  apply append_item_effect in H4 as (Hfr & Hdom & Hit). simpl in *.
  destruct (Hit (mk_item id nm None)) as (it & Hita & Hnm);
    [by rewrite lookup_insert_eq|]. simpl in Hnm.
  assert (Hcases : freed m2 = freed m ∧
    (∀ k, hookname = Some k → nm = Some k) ∧
    (∀ c, c ≠ a → is_Some (heap m2 !! c) →
          is_Some (heap m !! c) ∨ nm = Some c) ∧
    (∀ c, is_Some (heap m !! c) → is_Some (heap m2 !! c))).
  { destruct hookname as [k|]; [|destruct name as [w|]].
    - injection H2 as <- <-. simpl. split_and!; [done|by intros ? [= ->]| |].
      + intros c Hc. rewrite lookup_insert_ne by done. eauto.
      + intros c [v Hv]. rewrite lookup_insert_ne by congruence. eauto.
    - apply bind_inv in H2 as (b & m5 & H2 & H2').
      unfold must_wcsdup, alloc in H2. injection H2 as <- <-.
      injection H2' as <- <-. simpl. split_and!; [done|done| |].
      + intros c Hc. match goal with |- context [<[?b := WStr w]> _] =>
          destruct (decide (b = c)) as [->|] end; [by right|].
        rewrite !lookup_insert_ne by done. eauto.
      + intros c [v Hv].
        match goal with |- context [<[?b := WStr w]> ?h] =>
          pose proof (alloc_fresh h) as Hb;
          destruct (decide (b = c)) as [->|] end.
        * rewrite lookup_insert_eq. eauto.
        * rewrite !lookup_insert_ne; [eauto|congruence|done].
    - injection H2 as <- <-. simpl. split_and!; [done|done| |].
      + intros c Hc. rewrite lookup_insert_ne by done. eauto.
      + intros c [v Hv]. rewrite lookup_insert_ne by congruence. eauto. }
  destruct Hcases as (Hfr2 & Hhk & Hnew & Hold).
  split; [congruence|]. exists it. split_and!; [done|done| | |].
  - intros k Hk. rewrite Hnm. by apply Hhk.
  - intros c Hc. apply Hdom.
    destruct (decide (a = c)) as [->|]; [rewrite lookup_insert_eq; eauto|].
    rewrite lookup_insert_ne by done. by apply Hold.
  - intros c Hc Hc'. destruct (decide (c = a)) as [->|Hne]; [by left|].
    right. apply Hdom in Hc'. rewrite lookup_insert_ne in Hc' by done.
    rewrite Hnm. destruct (Hnew c Hne Hc') as [[v Hv]|]; [congruence|done].
Qed.

Lemma call_effect_refl m r : call_effect m r m.
Proof.
  split_and!; [done| |by left]. intros c Hc [v Hv]. congruence.
Qed.

Lemma found_or_new_effect s id name item m r m' :
  found_or_new s id name None item m = Done r m' → call_effect m r m'.
Proof.
  unfold found_or_new. destruct item as [a|].
  - intros [= <- <-]. apply call_effect_refl.
  - intros (Hfr & it & -> & Hit & _ & Hold & Hnew)%new_item_effect.
    split_and!; [done| |by left].
    intros c Hc Hc'. eexists _, it. split_and!; [done|done|]. by apply Hnew.
Qed.

Lemma found_or_new_hookname_effect s id name item h tr w r m' :
  found_or_new s id name (Some (fresh (dom h))) item
    (mk_mem (<[fresh (dom h) := WStr w]> h) tr) = Done r m' →
  call_effect (mk_mem h tr) r m'.
Proof.
  pose proof (alloc_fresh h) as Hk. set (k := fresh (dom h)) in *.
  unfold found_or_new. destruct item as [a|].
  - unfold existing_item. intros (? & m1 & H1 & H2)%bind_inv.
    rewrite free_Done in H1 by (simpl; rewrite lookup_insert_eq; eauto).
    injection H1 as H1. subst m1. injection H2 as <- <-.
    unfold call_effect. simpl. rewrite delete_insert_id by done.
    split_and!; [done| |by right]. intros c Hc [v Hv]. congruence.
  - intros (Hfr & it & -> & Hit & Hhk & Hold & Hnew)%new_item_effect.
    simpl in *. split_and!; simpl; [| |by left].
    + intros c [v Hv]. apply Hold. rewrite lookup_insert_ne; [eauto|congruence].
    + intros c Hc Hc'. eexists _, it. split_and!; [done|done|].
      destruct (decide (c = k)) as [->|Hne]; [right; by apply Hhk|].
      apply Hnew; [|done]. by rewrite lookup_insert_ne.
Qed.

(** Every call of [add_list_item] that returns has the effect described
    by [call_effect], whatever the store is like. *)
Lemma add_list_item_effect gid gname store id name m r m' :
  add_list_item gid gname store id name m = Done r m' → call_effect m r m'.
Proof.
  unfold add_list_item. destruct store as [s|].
  2: { intros (? & ? & H1 & _)%bind_inv. done. }
  intros (st & m1 & H1 & H2)%bind_inv. apply load_store_inv in H1 as [-> Hs].
  apply bind_inv in H2 as (? & m1 & H1 & H2).
  apply FAIL_IF_inv in H1 as [_ ->].
  assert (Hscan : ∀ matches id',
    (∀ it m b m', matches it m = Done b m' → m' = m) →
    (scan matches (store_head st)
       ≫= λ item, found_or_new s id' name None item) m = Done r m' →
    call_effect m r m').
  { intros matches id' Hm (item & m1 & H1' & H2')%bind_inv.
    apply scan_mem in H1' as ->; [|done]. by eapply found_or_new_effect. }
  destruct (store_type st).
  - apply bind_inv in H2 as (? & ? & H1 & _). done.
  - apply bind_inv in H2 as (? & m1 & H1 & H2).
    apply FAIL_IF_inv in H1 as [_ ->].
    apply bind_inv in H2 as (? & m1 & H1 & H2).
    apply FAIL_IF_inv in H1 as [_ ->].
    destruct name as [nm|]; [|done].
    eapply Hscan; [apply name_in_list_mem|done].
  - destruct name as [nm|].
    + destruct (gid nm) as [id'|].
      * eapply Hscan; [apply hook_id_in_list_mem|done].
      * injection H2 as <- <-. apply call_effect_refl.
    + apply bind_inv in H2 as (hookname & m1 & H1 & H2).
      apply bind_inv in H2 as (item & m2 & H2 & H3).
      apply scan_mem in H2 as ->; [|apply hook_id_in_list_mem].
      destruct (gname id) as [w|].
      * apply bind_inv in H1 as (b & m2 & H1 & H1').
        injection H1 as <- <-. injection H1' as <- <-.
        destruct m as [h tr]. by eapply found_or_new_hookname_effect.
      * injection H1 as <- <-. by eapply found_or_new_effect.
  - apply bind_inv in H2 as (item & m1 & H1 & H2).
    destruct name as [nm|].
    + apply scan_mem in H1 as ->; [|apply name_in_list_mem].
      by eapply found_or_new_effect.
    + apply scan_mem in H1 as ->; [|apply pid_in_list_mem].
      by eapply found_or_new_effect.
  - destruct name as [nm|].
    + destruct (gid nm) as [id'|].
      * eapply Hscan; [apply hook_id_in_list_mem|done].
      * injection H2 as <- <-. apply call_effect_refl.
    + apply bind_inv in H2 as (hookname & m1 & H1 & H2).
      apply bind_inv in H2 as (item & m2 & H2 & H3).
      apply scan_mem in H2 as ->; [|apply hook_id_in_list_mem].
      destruct (gname id) as [w|].
      * apply bind_inv in H1 as (b & m2 & H1 & H1').
        injection H1 as <- <-. injection H1' as <- <-.
        destruct m as [h tr]. by eapply found_or_new_hookname_effect.
      * injection H1 as <- <-. by eapply found_or_new_effect.
  - apply bind_inv in H2 as (item & m1 & H1 & H2).
    destruct name as [nm|].
    + apply scan_mem in H1 as ->; [|apply name_in_list_mem].
      by eapply found_or_new_effect.
    + apply scan_mem in H1 as ->; [|apply pid_in_list_mem].
      by eapply found_or_new_effect.
Qed.

(** ** Items of a store *)

Lemma chain_elem h ns : ∀ p n,
  chain h p ns → n ∈ ns →
  ∃ nx, h !! n_loc n = Some (Item (node_item n nx)) ∧ name_ok h n.
Proof.
  induction ns as [|x ns IH]; intros p n; simpl.
  - by intros _ ?%elem_of_nil.
  - intros [-> (nx & Hx & Hxm & Hc)] [->|Hn]%elem_of_cons; [eauto|].
    by eapply IH.
Qed.

Lemma create_list_store_result m o :
  heap m !! o = Some (Handle None) →
  create_list_store (Some o) m
    = Done tt
        (mk_mem (<[o := Handle (Some (fresh (dom (heap m))))]>
                   (<[fresh (dom (heap m))
                        := Store (mk_store LIST_INVALID_TYPE None None)]>
                      (heap m)))
           (freed m)).
Proof.
  intros Ho. unfold create_list_store.
  rewrite (bind_Done _ _ _ _ _ (load_handle_Done _ _ _ Ho)).
  erewrite bind_Done; [|reflexivity].
  erewrite bind_Done; [|reflexivity].
  assert (fresh (dom (heap m)) ≠ o).
  { intros E. pose proof (alloc_fresh (heap m)) as Hf. rewrite E in Hf.
    congruence. }
  rewrite write_Done; [done|]. simpl. rewrite lookup_insert_ne by done. eauto.
Qed.

(** What [free_list_store] leaves of a store and of the heap. *)
Lemma free_list_store_result m i s ty ns :
  heap m !! i = Some (Handle (Some s)) →
  list_inv (heap m) s ty ns →
  ∃ h', free_list_store (Some i) m
          = Done tt (mk_mem h' (freed m ++ cells ns ++ [s])) ∧
        h' !! i = Some (Handle None) ∧
        (∀ c, c ∈ cells ns ++ [s] → h' !! c = None) ∧
        (∀ c, c ∉ cells ns ++ [s] → c ≠ i → h' !! c = heap m !! c).
Proof.
  intros Hi (st & Hs & _ & Hc & _ & Hnd).
  destruct m as [h tr]. simpl in *. unfold free_list_store.
  rewrite (bind_Done _ _ _ _ _ (load_handle_Done (mk_mem h tr) _ _ Hi)).
  rewrite (bind_Done _ _ _ _ _ (load_store_Done (mk_mem h tr) _ _ Hs)).
  destruct (free_items_chain ns (store_head st) h tr (S (size h)) Hc Hnd)
    as (h1 & Hr & Hgone & Hkeep).
  { apply chain_length in Hc; [lia|done]. }
  assert (Hkind : ∀ c, c ∈ cells ns → c ≠ s ∧ c ≠ i).
  { intros c Hin.
    destruct (chain_cell_kind _ _ _ _ Hc Hin) as [[? ?]|[? ?]];
      split; congruence. }
  assert (Hsc : s ∉ cells ns) by (intros Hin; by destruct (Hkind s Hin)).
  assert (His : i ≠ s) by congruence.
  erewrite bind_Done; [|exact Hr].
  erewrite bind_Done; [|apply free_Done; simpl; rewrite Hkeep by done; eauto].
  rewrite write_Done
    by (simpl; rewrite lookup_delete_ne by done; rewrite Hkeep;
        [eauto|intros Hin; by destruct (Hkind i Hin)]).
  simpl. rewrite <- app_assoc. eexists. split; [done|]. split; [|split].
  - apply lookup_insert_eq.
  - intros c [Hin|Hcs]%elem_of_app.
    + destruct (Hkind c Hin). rewrite lookup_insert_ne by done.
      rewrite lookup_delete_ne by done. by apply Hgone.
    + apply list_elem_of_singleton in Hcs as ->.
      rewrite lookup_insert_ne by done. apply lookup_delete_eq.
  - intros c Hnot Hci. rewrite elem_of_app, list_elem_of_singleton in Hnot.
    rewrite lookup_insert_ne by done.
    rewrite lookup_delete_ne by naive_solver. apply Hkeep. naive_solver.
Qed.

(** An insertion that returns has written inside the store and its items
    only, and what it allocated belongs to the new item. *)
Lemma add_list_item_footprint gid gname m s ty ns id name r m' :
  list_inv (heap m) s ty ns →
  add_list_item gid gname (Some s) id name m = Done r m' →
  ∃ ns', list_inv (heap m') s ty ns' ∧
         (ns' = ns ∨
          ∃ n, ns' = ns ++ [n] ∧ r = Some (n_loc n) ∧
               ∀ c, c ∈ node_cells n → heap m !! c = None) ∧
         (∀ c, c ≠ s → c ∉ cells ns' → heap m' !! c = heap m !! c).
Proof.
  intros Hinv Hr.
  pose proof (add_list_item_outcome gid gname m s ty ns id name Hinv) as H.
  pose proof (add_list_item_effect _ _ _ _ _ _ _ _ Hr) as (_ & Hnew & _).
  rewrite Hr in H.
  destruct (add_outcome_cases gid gname ty id name)
    as [E|[E|(f & k & nm & d & E & _)]]; rewrite E in H; simpl in H.
  - done.
  - injection H as -> ->. exists ns. split; [done|]. split; [by left|done].
  - unfold lookup_or_new in H. destruct (find f ns) as [n0|]; simpl in H.
    + unfold returns_existing in H. injection H as -> ->.
      exists ns. split; [done|]. split; [by left|done].
    + destruct H as (n & h' & Hr' & _ & _ & Hfresh & Hinv' & Hfr).
      injection Hr' as -> ->. exists (ns ++ [n]). split; [done|].
      split; [right; eauto|].
      intros c Hcs Hcn. rewrite cells_app, elem_of_app in Hcn.
      destruct (heap m !! c) as [x|] eqn:Ec.
      * simpl. rewrite <- Ec. apply Hfr; [by rewrite Ec|done|].
        intros Hl. apply Hcn. left. rewrite fmap_last in Hl.
        destruct (last ns) as [t|] eqn:El; [|done]. injection Hl as ->.
        apply elem_of_cells. exists t.
        split; [by apply last_Some_elem_of|apply n_loc_in_node_cells].
      * simpl in *. destruct (h' !! c) as [y|] eqn:Ec'; [|done]. exfalso.
        destruct (Hnew c Ec) as (a & it & [= <-] & Hit & Hor);
          [by rewrite Ec'|].
        destruct Hinv' as (st & _ & _ & Hc & _).
        destruct (chain_elem _ _ _ n Hc) as (nx & Hn & _).
        { apply elem_of_app. right. by apply list_elem_of_singleton. }
        apply Hcn. right. unfold cells. simpl. rewrite app_nil_r.
        assert (it = node_item n nx) as -> by congruence.
        destruct Hor as [->|Hname]; [apply n_loc_in_node_cells|].
        simpl in Hname. destruct (n_name n) as [[b w]|] eqn:En; [|done].
        injection Hname as ->. by eapply name_in_node_cells.
Qed.

(** ** Creation, insertion and teardown together *)

(** X8: a handle is initialised once: after [create_list_store] has made a
    store for it, a second call on the handle terminates the process; so does
    a call without a handle. *)
Theorem create_list_store_twice_is_fatal m o :
  heap m !! o = Some (Handle None) →
  (∃ m1, create_list_store (Some o) m = Done tt m1 ∧
         create_list_store (Some o) m1 = Fatal) ∧
  create_list_store None m = Fatal.
Proof.
  intros Ho. split; [|done]. eexists. split.
  - by apply create_list_store_result.
  - unfold create_list_store.
    erewrite bind_Done;
      [|apply load_handle_Done; simpl; apply lookup_insert_eq].
    done.
Qed.

(** X9: the kind of a store has to be set before the first insertion: on the
    store that [create_list_store] has just made, every insertion terminates
    the process. *)
Theorem insertion_into_created_store_is_fatal m o :
  heap m !! o = Some (Handle None) →
  ∃ s m1, create_list_store (Some o) m = Done tt m1 ∧
          heap m1 !! o = Some (Handle (Some s)) ∧
          ∀ gid gname id name,
            add_list_item gid gname (Some s) id name m1 = Fatal.
Proof.
  intros Ho. eexists _, _. split; [by apply create_list_store_result|].
  assert (Hne : o ≠ fresh (dom (heap m))).
  { intros E. pose proof (alloc_fresh (heap m)) as Hf. rewrite <- E in Hf.
    congruence. }
  split; [apply lookup_insert_eq|].
  intros gid gname id name. unfold add_list_item.
  erewrite bind_Done;
    [|apply load_store_Done; simpl; rewrite lookup_insert_ne by done;
      apply lookup_insert_eq].
  done.
Qed.

(** X10: creation followed by teardown gives the heap back as it was: the one
    object that was allocated is released and the handle holds NULL again. *)
Theorem create_then_free_restores_heap m i :
  heap m !! i = Some (Handle None) →
  ∃ m1, create_list_store (Some i) m = Done tt m1 ∧
        free_list_store (Some i) m1
          = Done tt (mk_mem (heap m) (freed m ++ [fresh (dom (heap m))])).
Proof.
  intros Hi. eexists. split; [by apply create_list_store_result|].
  set (s := fresh (dom (heap m))).
  assert (Hs : heap m !! s = None) by apply alloc_fresh.
  assert (Hne : i ≠ s) by congruence.
  unfold free_list_store.
  erewrite bind_Done;
    [|apply load_handle_Done; simpl; apply lookup_insert_eq].
  cbv beta iota.
  erewrite bind_Done;
    [|apply load_store_Done; simpl; rewrite lookup_insert_ne by done;
      apply lookup_insert_eq].
  erewrite bind_Done; [|reflexivity].
  erewrite bind_Done;
    [|apply free_Done; simpl; rewrite lookup_insert_ne by done;
      rewrite lookup_insert_eq; eauto].
  rewrite write_Done
    by (simpl; rewrite lookup_delete_ne by done; rewrite lookup_insert_eq; eauto).
  simpl. f_equal. f_equal. apply map_eq. intros c.
  destruct (decide (c = i)) as [->|Hci].
  - by rewrite lookup_insert_eq.
  - rewrite lookup_insert_ne by done.
    destruct (decide (c = s)) as [->|Hcs].
    + by rewrite lookup_delete_eq.
    + rewrite lookup_delete_ne by done. by rewrite !lookup_insert_ne.
Qed.

(** X11: a handle can be used again after teardown: [free_list_store] leaves
    NULL in it, so [create_list_store] accepts it and makes a new empty
    store. *)
Theorem free_then_create_again m i s ty ns :
  heap m !! i = Some (Handle (Some s)) →
  list_inv (heap m) s ty ns →
  ∃ m1 m2 s2,
    free_list_store (Some i) m = Done tt m1 ∧
    create_list_store (Some i) m1 = Done tt m2 ∧
    heap m2 !! i = Some (Handle (Some s2)) ∧
    list_inv (heap m2) s2 LIST_INVALID_TYPE [].
Proof.
  intros Hi Hinv.
  destruct (free_list_store_result m i s ty ns Hi Hinv)
    as (h' & Hr & Hi' & _ & _).
  eexists _, _, _. split; [exact Hr|].
  split; [by apply create_list_store_result|]. simpl.
  split; [apply lookup_insert_eq|].
  assert (i ≠ fresh (dom h')).
  { intros E. pose proof (alloc_fresh h') as Hf. rewrite <- E in Hf.
    congruence. }
  eexists. split.
  { rewrite lookup_insert_ne by done. apply lookup_insert_eq. }
  split; [reflexivity|]. split; [reflexivity|]. split; [reflexivity|].
  apply NoDup_nil_2.
Qed.

(** X12: whatever the store is like, a call of [add_list_item] that returns has
    released no object that existed before, and every object that it
    allocated and that is still allocated is the item it returned or the name
    of that item. *)
Theorem add_list_item_releases_nothing_and_leaks_nothing
    gid gname store id name m r m' :
  add_list_item gid gname store id name m = Done r m' →
  (∀ c, is_Some (heap m !! c) → is_Some (heap m' !! c)) ∧
  (∀ c, heap m !! c = None → is_Some (heap m' !! c) →
        ∃ a it, r = Some a ∧ heap m' !! a = Some (Item it) ∧
                (c = a ∨ item_name it = Some c)).
Proof.
  intros Hr. destruct (add_list_item_effect _ _ _ _ _ _ _ _ Hr) as (H1 & H2 & _).
  done.
Qed.

(** X13: an insertion into a store that holds a sequence writes inside the
    store only: every address that is neither the store nor an object of an
    item of the sequence after the call holds what it held before, or is free
    as before. *)
Theorem add_list_item_writes_inside_store gid gname m s ty ns id name :
  list_inv (heap m) s ty ns →
  add_list_item gid gname (Some s) id name m = Fatal ∨
  ∃ r m' ns',
    add_list_item gid gname (Some s) id name m = Done r m' ∧
    list_inv (heap m') s ty ns' ∧
    (∀ c, c ≠ s → c ∉ cells ns' → heap m' !! c = heap m !! c).
Proof.
  intros Hinv.
  destruct (add_list_item_step gid gname m s ty ns id name Hinv)
    as [Hf|(r & m' & Hr & _)]; [by left|right].
  destruct (add_list_item_footprint _ _ _ _ _ _ _ _ _ _ Hinv Hr)
    as (ns' & Hinv' & _ & Hfr).
  eauto 10.
Qed.

(** X14: teardown releases what insertions have allocated: the heap that
    [free_list_store] leaves is the same after an insertion as without it. *)
Theorem free_list_store_after_insertion gid gname m i s ty ns id name r m' :
  heap m !! i = Some (Handle (Some s)) →
  list_inv (heap m) s ty ns →
  add_list_item gid gname (Some s) id name m = Done r m' →
  ∃ h tr tr',
    free_list_store (Some i) m = Done tt (mk_mem h tr) ∧
    free_list_store (Some i) m' = Done tt (mk_mem h tr').
Proof.
  intros Hi Hinv Hr.
  destruct (add_list_item_footprint _ _ _ _ _ _ _ _ _ _ Hinv Hr)
    as (ns' & Hinv' & Hns' & Hfr).
  assert (His : i ≠ s).
  { destruct Hinv as (? & ? & _). congruence. }
  assert (Hic : i ∉ cells ns').
  { intros Hin. destruct Hns' as [->|(n & -> & _ & Hfresh)].
    - destruct Hinv as (? & _ & _ & Hc & _).
      destruct (chain_cell_kind _ _ _ _ Hc Hin) as [[? ?]|[? ?]]; congruence.
    - rewrite cells_app, elem_of_app in Hin. destruct Hin as [Hin|Hin].
      + destruct Hinv as (? & _ & _ & Hc & _).
        destruct (chain_cell_kind _ _ _ _ Hc Hin) as [[? ?]|[? ?]]; congruence.
      + unfold cells in Hin. simpl in Hin. rewrite app_nil_r in Hin.
        rewrite (Hfresh _ Hin) in Hi. done. }
  assert (Hi' : heap m' !! i = Some (Handle (Some s))) by by rewrite Hfr.
  destruct (free_list_store_result m i s ty ns Hi Hinv)
    as (h1 & Hr1 & Hi1 & Hgone1 & Hkeep1).
  destruct (free_list_store_result m' i s ty ns' Hi' Hinv')
    as (h2 & Hr2 & Hi2 & Hgone2 & Hkeep2).
  assert (h2 = h1) as ->; [|eauto].
  apply map_eq. intros c.
  destruct (decide (c = i)) as [->|Hci]; [congruence|].
  destruct (decide (c ∈ cells ns ++ [s])) as [Hin|Hnin].
  - rewrite (Hgone1 c Hin). apply Hgone2.
    destruct Hns' as [->|(n & -> & _)]; [done|].
    rewrite cells_app. set_solver.
  - rewrite (Hkeep1 c Hnin Hci).
    destruct (decide (c ∈ cells ns' ++ [s])) as [Hin'|Hnin'].
    + rewrite (Hgone2 c Hin'). symmetry.
      destruct Hns' as [->|(n & -> & _ & Hfresh)]; [done|].
      apply Hfresh. rewrite cells_app in Hin'. unfold cells at 2 in Hin'.
      simpl in Hin'. rewrite app_nil_r in Hin'. set_solver.
    + rewrite (Hkeep2 c Hnin' Hci). apply Hfr; set_solver.
Qed.

(** ** Printing an item *)

(** X15: [print_list_item] on an item of a store writes the name of the item if
    it has one and its id otherwise, between the separators, and changes
    nothing; on NULL it writes nothing. *)
Theorem print_list_item_of_store m s ty ns n :
  list_inv (heap m) s ty ns → n ∈ ns →
  print_list_item (Some (n_loc n)) m
    = Done [PRINT_SEP_BEGIN "Generic List Item";
            match n_name n with
            | Some (_, w) => printf_item_name w
            | None => printf_item_id (n_id n)
            end;
            PRINT_SEP_END "Generic List Item"] m ∧
  print_list_item None m = Done [] m.
Proof.
  intros (st & _ & _ & Hc & _) Hn. split; [|done].
  destruct (chain_elem _ _ _ _ Hc Hn) as (nx & Hit & Hnm).
  unfold print_list_item.
  rewrite (bind_Done _ _ _ _ _ (load_item_Done _ _ _ Hit)).
  unfold name_ok in Hnm. simpl. destruct (n_name n) as [[a w]|]; simpl.
  - erewrite bind_Done; [done|].
    by rewrite (bind_Done _ _ _ _ _ (load_wstr_Done _ _ _ Hnm)).
  - by erewrite bind_Done.
Qed.

Lemma desktop_mem_inv :
  list_inv (heap desktop_mem) 2%positive LIST_INCLUDE_DESK desktop_nodes.
Proof. concrete_inv. Qed.

Lemma add_list_item_fatal_iff_witness :
  demo_add (Some 2%positive) 5 (Some (wide "Default")) desk_mem = Fatal ∧
  (∃ r m', demo_add (Some 2%positive) 5 (Some (wide "WH_MOUSE")) hook_mem
             = Done r m') ∧
  (∃ r m', demo_add (Some 2%positive) 1234 None prog_mem = Done r m').
Proof.
  split; [|split].
  - apply (add_list_item_fatal_iff demo_hook_id demo_hook_name desk_mem
             2%positive LIST_INCLUDE_DESK [] 5 (Some (wide "Default"))
             desk_mem_inv).
    right. split; [reflexivity|]. right. lia.
  - apply (add_list_item_fatal_iff demo_hook_id demo_hook_name hook_mem
             2%positive LIST_INCLUDE_HOOK hook_nodes 5 (Some (wide "WH_MOUSE"))
             hook_mem_inv).
    left. left. reflexivity.
  - apply (add_list_item_fatal_iff demo_hook_id demo_hook_name prog_mem
             2%positive LIST_EXCLUDE_PROG prog_nodes 1234 None prog_mem_inv).
    right. right. reflexivity.
Defined.

Lemma add_list_item_null_iff_witness :
  ∃ m', demo_add (Some 2%positive) 0 (Some (wide "WH_NOSUCH")) hook_mem
          = Done None m'.
Proof.
  apply (add_list_item_null_iff demo_hook_id demo_hook_name hook_mem
           2%positive LIST_INCLUDE_HOOK hook_nodes 0 (Some (wide "WH_NOSUCH"))
           hook_mem_inv).
  split; [left; reflexivity|]. exists (wide "WH_NOSUCH"). split; reflexivity.
Defined.

Lemma hook_name_resolves_to_id_witness :
  ∃ n a h',
    demo_add (Some 2%positive) 999 (Some (wide "WH_MOUSE")) hook_mem
      = Done (Some (n_loc n)) (mk_mem h' []) ∧
    n_id n = 7 ∧ n_name n = Some (a, wide "WH_MOUSE") ∧
    heap hook_mem !! a = None ∧
    list_inv h' 2%positive LIST_INCLUDE_HOOK (hook_nodes ++ [n]).
Proof.
  apply (hook_name_resolves_to_id demo_hook_id demo_hook_name hook_mem
           2%positive LIST_INCLUDE_HOOK hook_nodes 999 (wide "WH_MOUSE") 7).
  - exact hook_mem_inv.
  - left. reflexivity.
  - reflexivity.
  - intros n Hn. apply list_elem_of_singleton in Hn as ->. simpl. lia.
Defined.

Lemma hook_resolved_name_kept_or_released_witness :
  (∃ n a h',
     demo_add (Some 2%positive) 7 None hook_mem
       = Done (Some (n_loc n)) (mk_mem h' []) ∧
     n_id n = 7 ∧ n_name n = Some (a, wide "WH_MOUSE")) ∧
  (∃ n0, demo_add (Some 2%positive) 2 None hook_mem
           = Done (Some (n_loc n0)) (mk_mem (heap hook_mem) [5%positive])).
Proof.
  split.
  - destruct (hook_resolved_name_kept_or_released demo_hook_id demo_hook_name
                hook_mem 2%positive LIST_INCLUDE_HOOK hook_nodes 7
                (wide "WH_MOUSE") hook_mem_inv (or_introl eq_refl) eq_refl)
      as [H _].
    destruct H as (n & a & h' & Hr & Hid & Hname & _).
    + intros n Hn. apply list_elem_of_singleton in Hn as ->. simpl. lia.
    + eauto 10.
  - destruct (hook_resolved_name_kept_or_released demo_hook_id demo_hook_name
                hook_mem 2%positive LIST_INCLUDE_HOOK hook_nodes 2
                (wide "WH_KEYBOARD") hook_mem_inv (or_introl eq_refl) eq_refl)
      as [_ H].
    destruct (H (mk_node 3%positive 2 (Some (4%positive, wide "WH_KEYBOARD"))))
      as (n0 & _ & _ & Hr & _).
    + by apply list_elem_of_singleton.
    + reflexivity.
    + exists n0. exact Hr.
Defined.

Lemma desktop_name_dedup_or_append_witness :
  (∃ n0, demo_add (Some 2%positive) 0 (Some (wide "DEFAULT")) desktop_mem
           = Done (Some (n_loc n0)) desktop_mem ∧ n0 ∈ desktop_nodes) ∧
  (∃ n a h',
     demo_add (Some 2%positive) 0 (Some (wide "Winlogon")) desktop_mem
       = Done (Some (n_loc n)) (mk_mem h' []) ∧
     n_id n = 0 ∧ n_name n = Some (a, wide "Winlogon") ∧
     list_inv h' 2%positive LIST_INCLUDE_DESK (desktop_nodes ++ [n])).
Proof.
  split.
  - destruct (desktop_name_dedup_or_append demo_hook_id demo_hook_name
                desktop_mem 2%positive desktop_nodes (wide "DEFAULT")
                desktop_mem_inv) as [H _].
    destruct (H (mk_node 3%positive 0 (Some (4%positive, wide "Default")))
                4%positive (wide "Default"))
      as (n0 & a0 & w0 & Hr & Hin & _).
    + by apply list_elem_of_singleton.
    + reflexivity.
    + reflexivity.
    + eauto.
  - destruct (desktop_name_dedup_or_append demo_hook_id demo_hook_name
                desktop_mem 2%positive desktop_nodes (wide "Winlogon")
                desktop_mem_inv) as [_ H].
    destruct H as (n & a & h' & Hr & Hid & Hname & _ & Hinv).
    + intros n a w Hn Hname. apply list_elem_of_singleton in Hn as ->.
      injection Hname as <- <-. vm_compute. discriminate.
    + eauto 10.
Defined.

Lemma hook_nodes_no_duplicates : no_duplicates LIST_INCLUDE_HOOK hook_nodes.
Proof.
  intros [|i] [|j] x y Hi Hj _; simpl in *; try done;
    by (destruct i + destruct j).
Qed.

Lemma add_list_item_keeps_no_duplicates_witness :
  ∃ r m' ns',
    demo_add (Some 2%positive) 7 None hook_mem = Done r m' ∧
    list_inv (heap m') 2%positive LIST_INCLUDE_HOOK ns' ∧
    no_duplicates LIST_INCLUDE_HOOK ns'.
Proof.
  destruct (add_list_item_keeps_no_duplicates demo_hook_id demo_hook_name
              hook_mem 2%positive LIST_INCLUDE_HOOK hook_nodes 7 None
              hook_mem_inv hook_nodes_no_duplicates) as [Hf|H].
  - vm_compute in Hf. discriminate Hf.
  - exact H.
Defined.

Lemma add_list_item_twice_witness :
  ∃ r m1 m2,
    demo_add (Some 2%positive) 0 (Some (wide "calc.exe")) prog_mem
      = Done r m1 ∧
    demo_add (Some 2%positive) 0 (Some (wide "calc.exe")) m1 = Done r m2 ∧
    heap m2 = heap m1.
Proof.
  destruct (add_list_item_twice demo_hook_id demo_hook_name prog_mem
              2%positive LIST_EXCLUDE_PROG prog_nodes 0
              (Some (wide "calc.exe")) prog_mem_inv) as [Hf|H].
  - vm_compute in Hf. discriminate Hf.
  - exact H.
Defined.

Lemma create_list_store_twice_is_fatal_witness :
  ∃ m1, create_list_store (Some 1%positive) empty_handle_mem = Done tt m1 ∧
        create_list_store (Some 1%positive) m1 = Fatal.
Proof.
  apply (create_list_store_twice_is_fatal empty_handle_mem 1%positive).
  reflexivity.
Defined.

Lemma insertion_into_created_store_is_fatal_witness :
  ∃ s m1, create_list_store (Some 1%positive) empty_handle_mem = Done tt m1 ∧
          heap m1 !! 1%positive = Some (Handle (Some s)) ∧
          demo_add (Some s) 2 None m1 = Fatal.
Proof.
  destruct (insertion_into_created_store_is_fatal empty_handle_mem 1%positive)
    as (s & m1 & Hr & Hh & Hf).
  - reflexivity.
  - exists s, m1. split; [exact Hr|]. split; [exact Hh|apply Hf].
Defined.

Lemma create_then_free_restores_heap_witness :
  ∃ m1, create_list_store (Some 1%positive) empty_handle_mem = Done tt m1 ∧
        free_list_store (Some 1%positive) m1
          = Done tt (mk_mem (heap empty_handle_mem) [2%positive]).
Proof.
  apply (create_then_free_restores_heap empty_handle_mem 1%positive).
  reflexivity.
Defined.

Lemma free_then_create_again_witness :
  ∃ m1 m2 s2,
    free_list_store (Some 1%positive) hook_mem = Done tt m1 ∧
    create_list_store (Some 1%positive) m1 = Done tt m2 ∧
    heap m2 !! 1%positive = Some (Handle (Some s2)) ∧
    list_inv (heap m2) s2 LIST_INVALID_TYPE [].
Proof.
  apply (free_then_create_again hook_mem 1%positive 2%positive
           LIST_INCLUDE_HOOK hook_nodes).
  - reflexivity.
  - exact hook_mem_inv.
Defined.

Lemma add_list_item_releases_nothing_and_leaks_nothing_witness :
  ∃ r m', demo_add (Some 2%positive) 7 None hook_mem = Done r m' ∧
          ∀ c, is_Some (heap hook_mem !! c) → is_Some (heap m' !! c).
Proof.
  destruct (demo_add (Some 2%positive) 7 None hook_mem) as [r m'| | |] eqn:E;
    [|vm_compute in E; discriminate E..].
  exists r, m'. split; [reflexivity|].
  apply (add_list_item_releases_nothing_and_leaks_nothing _ _ _ _ _ _ _ _ E).
Defined.

Lemma add_list_item_writes_inside_store_witness :
  ∃ r m' ns',
    demo_add (Some 2%positive) 1234 None prog_mem = Done r m' ∧
    list_inv (heap m') 2%positive LIST_EXCLUDE_PROG ns' ∧
    (∀ c, c ≠ 2%positive → c ∉ cells ns' →
          heap m' !! c = heap prog_mem !! c).
Proof.
  destruct (add_list_item_writes_inside_store demo_hook_id demo_hook_name
              prog_mem 2%positive LIST_EXCLUDE_PROG prog_nodes 1234 None
              prog_mem_inv) as [Hf|H].
  - vm_compute in Hf. discriminate Hf.
  - exact H.
Defined.

Lemma free_list_store_after_insertion_witness :
  ∃ h tr tr' r m',
    demo_add (Some 2%positive) 7 None hook_mem = Done r m' ∧
    free_list_store (Some 1%positive) hook_mem = Done tt (mk_mem h tr) ∧
    free_list_store (Some 1%positive) m' = Done tt (mk_mem h tr').
Proof.
  destruct (demo_add (Some 2%positive) 7 None hook_mem) as [r m'| | |] eqn:E;
    [|vm_compute in E; discriminate E..].
  destruct (free_list_store_after_insertion demo_hook_id demo_hook_name
              hook_mem 1%positive 2%positive LIST_INCLUDE_HOOK hook_nodes
              7 None r m') as (h & tr & tr' & H1 & H2).
  - reflexivity.
  - exact hook_mem_inv.
  - exact E.
  - exists h, tr, tr', r, m'. split; [reflexivity|]. split; [exact H1|exact H2].
Defined.

Lemma print_list_item_of_store_witness :
  print_list_item (Some 5%positive) prog_mem
    = Done [PRINT_SEP_BEGIN "Generic List Item"; printf_item_id 1234;
            PRINT_SEP_END "Generic List Item"] prog_mem ∧
  print_list_item (Some 3%positive) prog_mem
    = Done [PRINT_SEP_BEGIN "Generic List Item";
            printf_item_name (wide "Foo.exe");
            PRINT_SEP_END "Generic List Item"] prog_mem.
Proof.
  split.
  - apply (print_list_item_of_store prog_mem 2%positive LIST_EXCLUDE_PROG
             prog_nodes (mk_node 5%positive 1234 None)).
    + exact prog_mem_inv.
    + apply elem_of_cons. right. apply elem_of_cons. by left.
  - apply (print_list_item_of_store prog_mem 2%positive LIST_EXCLUDE_PROG
             prog_nodes
             (mk_node 3%positive 0 (Some (4%positive, wide "Foo.exe")))).
    + exact prog_mem_inv.
    + apply elem_of_cons. by left.
Defined.

(** ** The order of insertion *)

Lemma append_item_counted_uncounted s a m :
  uncounted (append_item_counted s a m) = append_item s a m.
Proof.
  unfold append_item_counted, append_item, mbind, Counted_bind, counted_bind,
    M_bind, bind, access.
  destruct (load_store s m) as [st m1| | |]; try done.
  destruct (store_head st).
  - destruct (store_tail st) as [t|]; [|done].
    destruct (load_item t m1) as [lt m2| | |]; try done.
    destruct (write t _ m2) as [u m3| | |]; try done.
    by destruct (write s _ m3) as [u' m4| | |].
  - by destruct (write s _ m1) as [u m2| | |].
Qed.

(** On a store that holds a sequence the append step makes at most four
    accesses, whatever the length of the sequence. *)
Lemma append_item_counted_cost m s ty ns a :
  list_inv (heap m) s ty ns →
  ∃ n m', append_item_counted s a m = Done (tt, n) m' ∧
          append_item s a m = Done tt m' ∧
          n = (if decide (ns = []) then 2 else 4)%nat.
Proof.
  intros Hinv. pose proof Hinv as (st & Hs & Hty & Hc & Htl & _).
  rewrite (append_item_writes m s ty ns st a Hinv Hs).
  unfold append_item_counted, mbind, Counted_bind, counted_bind, access.
  rewrite (load_store_Done _ _ _ Hs).
  rewrite (chain_head _ _ _ Hc), Htl, fmap_last, Hty.
  destruct ns as [|x ns]; simpl head.
  - simpl. rewrite write_Done by eauto. eauto.
  - destruct (last (x :: ns)) as [t|] eqn:El; [|by apply last_None in El].
    pose proof (chain_last _ _ _ _ Hc El) as Ht. simpl.
    rewrite (load_item_Done _ _ _ Ht).
    rewrite write_Done by eauto.
    rewrite write_Done.
    + simpl. eexists _, _. split; [reflexivity|]. split; [reflexivity|].
      reflexivity.
    + simpl. destruct (decide (n_loc t = s)) as [->|Hne].
      * rewrite lookup_insert_eq. eauto.
      * rewrite lookup_insert_ne by done. eauto.
Qed.

(** ** Requests that are not in the list *)

(** The scan for a request finds the duplicates of the item the request
    stands for. *)
Lemma request_entry_outcome gid gname ty id name k nm :
  request_entry gid gname ty id name = Some (k, nm) →
  ∃ f d,
    (∀ ns, add_outcome gid gname ty ns id name = lookup_or_new f ns k nm d) ∧
    (∀ x n, f x = true → carries n k nm → duplicates ty x n).
Proof.
  assert (Hhook : ∀ x n, hook_match k x = true → carries n k nm →
                         n_id x = n_id n).
  { intros x n Hx [Hid _]. apply hook_match_id in Hx. congruence. }
  assert (Hname : ∀ w x n, name_match w x = true → carries n k (Some w) →
            match n_name x, n_name n with
            | Some (_, wx), Some (_, wy) => eq_nocase wx wy
            | _, _ => False
            end).
  { intros w x n Hx [_ Hnm]. apply name_text in Hnm as [b Hnm].
    apply name_match_nocase in Hx as (a & wx & Hx & Heq).
    by rewrite Hx, Hnm. }
  assert (Hpid : ∀ x n, pid_match k x = true → carries n k None →
            match n_name x, n_name n with
            | Some (_, wx), Some (_, wy) => eq_nocase wx wy
            | None, None => n_id x = n_id n
            | _, _ => False
            end).
  { intros x n Hx [Hid Hnm]. apply name_absent in Hnm.
    apply pid_match_nameless in Hx as [Hx Hxi]. rewrite Hx, Hnm. congruence. }
  destruct ty; simpl; try done.
  - destruct name as [w|]; [|done]. destruct (id =? 0); [|done].
    intros [= <- <-]. eexists _, _. split; [done|]. exact (Hname w).
  - destruct name as [w|].
    + destruct (gid w) as [k'|]; [|done]. intros [= <- <-].
      eexists _, _. split; [done|]. exact Hhook.
    + intros [= <- <-]. eexists _, _. split; [done|]. exact Hhook.
  - intros [= <- <-]. destruct name as [w|].
    + eexists _, _. split; [done|]. simpl. intros x n Hx Hn.
      specialize (Hname w x n Hx Hn).
      by destruct (n_name x) as [[? ?]|], (n_name n) as [[? ?]|].
    + eexists _, _. split; [done|]. exact Hpid.
  - destruct name as [w|].
    + destruct (gid w) as [k'|]; [|done]. intros [= <- <-].
      eexists _, _. split; [done|]. exact Hhook.
    + intros [= <- <-]. eexists _, _. split; [done|]. exact Hhook.
  - intros [= <- <-]. destruct name as [w|].
    + eexists _, _. split; [done|]. simpl. intros x n Hx Hn.
      specialize (Hname w x n Hx Hn).
      by destruct (n_name x) as [[? ?]|], (n_name n) as [[? ?]|].
    + eexists _, _. split; [done|]. exact Hpid.
Qed.

Lemma carries_exists k nm : ∃ n, carries n k nm.
Proof.
  exists (mk_node 1%positive k (pair 1%positive <$> nm)).
  split; [done|]. simpl. by destruct nm.
Qed.

(** A request that is not in the list is appended. *)
Lemma add_list_item_appends_request gid gname m s ty ns id name k nm :
  list_inv (heap m) s ty ns →
  request_entry gid gname ty id name = Some (k, nm) →
  not_in_list ty ns k nm →
  ∃ n h', add_list_item gid gname (Some s) id name m
            = Done (Some (n_loc n)) (mk_mem h' (freed m)) ∧
          carries n k nm ∧ heap m !! n_loc n = None ∧
          list_inv h' s ty (ns ++ [n]).
Proof.
  intros Hinv He Habs.
  pose proof (add_list_item_outcome gid gname m s ty ns id name Hinv) as H.
  destruct (request_entry_outcome _ _ _ _ _ _ _ He) as (f & d & E & Hf).
  rewrite E in H. unfold lookup_or_new in H.
  destruct (carries_exists k nm) as [n0 Hn0].
  rewrite find_absent in H.
  - destruct H as (n & h' & Hr & Hid & Hname & Hfresh & Hinv' & _).
    exists n, h'. split_and!; try done. apply Hfresh, n_loc_in_node_cells.
  - intros x Hx. apply not_true_is_false. intros Hfx.
    by eapply Habs, Hf.
Qed.

Lemma not_in_list_snoc ty ns n k1 nm1 k2 nm2 :
  not_in_list ty ns k2 nm2 → carries n k1 nm1 →
  distinct_requests ty k1 nm1 k2 nm2 →
  not_in_list ty (ns ++ [n]) k2 nm2.
Proof.
  intros Habs Hn Hd x y [Hx|Hx]%elem_of_app Hy.
  - by eapply Habs.
  - apply list_elem_of_singleton in Hx as ->. by eapply Hd.
Qed.

(** C8: a store that holds a sequence has no head and no tail exactly
    when the sequence is empty, its tail has no successor, its traversal
    visits the sequence in order, and appending an item to it is two reads
    and at most two writes, of the store and of the tail: at most four
    accesses to the heap, whatever the length of the sequence.  An insertion
    that returns leaves the sequence as it was or appends one item to it,
    writing only the store and the former tail among the objects that
    existed.  A request that no item of the list is a duplicate of is
    appended as a new last item; so three requests of which none is in the
    list and no two stand for duplicates are appended in the order of the
    calls, and the traversal visits the items that were there and then the
    three. *)
Theorem insertion_preserves_list_and_order
    get_hook_id_from_name get_hook_name_from_id m s ty ns id name :
  list_inv (heap m) s ty ns →
  (∃ st, heap m !! s = Some (Store st) ∧
         (store_head st = None ↔ ns = []) ∧
         (store_tail st = None ↔ ns = []) ∧
         (∀ t, store_tail st = Some t →
               ∃ it, heap m !! t = Some (Item it) ∧ item_next it = None) ∧
         traverse s m = Done (node_items ns) m ∧
         (∀ a, append_item s a m
                 = Done tt
                     (mk_mem
                        match last ns with
                        | None =>
                            <[s := Store (mk_store ty (Some a) (Some a))]>
                              (heap m)
                        | Some t =>
                            <[s := Store (mk_store ty (store_head st)
                                            (Some a))]>
                              (<[n_loc t := Item (node_item t (Some a))]>
                                 (heap m))
                        end
                        (freed m))) ∧
         (∀ a, ∃ n m', append_item_counted s a m = Done (tt, n) m' ∧
                       append_item s a m = Done tt m' ∧ (n ≤ 4)%nat)) ∧
  (add_list_item get_hook_id_from_name get_hook_name_from_id
     (Some s) id name m = Fatal ∨
   ∃ r m', add_list_item get_hook_id_from_name get_hook_name_from_id
             (Some s) id name m = Done r m' ∧
     ((list_inv (heap m') s ty ns ∧ heap m' = heap m ∧
       (r = None ∨ ∃ n, n ∈ ns ∧ r = Some (n_loc n))) ∨
      (∃ n, r = Some (n_loc n) ∧ heap m !! n_loc n = None ∧
            list_inv (heap m') s ty (ns ++ [n]) ∧
            (∀ c, is_Some (heap m !! c) → c ≠ s →
                  Some c ≠ last (n_loc <$> ns) →
                  heap m' !! c = heap m !! c)))) ∧
  (∀ id1 name1 id2 name2 id3 name3 rA rB rC m1 m2 m3,
     add_list_item get_hook_id_from_name get_hook_name_from_id
       (Some s) id1 name1 m = Done (Some rA) m1 →
     add_list_item get_hook_id_from_name get_hook_name_from_id
       (Some s) id2 name2 m1 = Done (Some rB) m2 →
     add_list_item get_hook_id_from_name get_hook_name_from_id
       (Some s) id3 name3 m2 = Done (Some rC) m3 →
     heap m !! rA = None → heap m1 !! rB = None → heap m2 !! rC = None →
     ∃ A B C, n_loc A = rA ∧ n_loc B = rB ∧ n_loc C = rC ∧
              list_inv (heap m3) s ty (ns ++ [A; B; C]) ∧
              traverse s m3 = Done (node_items (ns ++ [A; B; C])) m3) ∧
  (∀ k nm,
     request_entry get_hook_id_from_name get_hook_name_from_id ty id name
       = Some (k, nm) →
     not_in_list ty ns k nm →
     ∃ n h',
       add_list_item get_hook_id_from_name get_hook_name_from_id
         (Some s) id name m = Done (Some (n_loc n)) (mk_mem h' (freed m)) ∧
       carries n k nm ∧ heap m !! n_loc n = None ∧
       list_inv h' s ty (ns ++ [n])) ∧
  (∀ id1 name1 id2 name2 id3 name3 k1 nm1 k2 nm2 k3 nm3,
     request_entry get_hook_id_from_name get_hook_name_from_id ty id1 name1
       = Some (k1, nm1) →
     request_entry get_hook_id_from_name get_hook_name_from_id ty id2 name2
       = Some (k2, nm2) →
     request_entry get_hook_id_from_name get_hook_name_from_id ty id3 name3
       = Some (k3, nm3) →
     not_in_list ty ns k1 nm1 → not_in_list ty ns k2 nm2 →
     not_in_list ty ns k3 nm3 →
     distinct_requests ty k1 nm1 k2 nm2 →
     distinct_requests ty k1 nm1 k3 nm3 →
     distinct_requests ty k2 nm2 k3 nm3 →
     ∃ A B C m1 m2 m3,
       add_list_item get_hook_id_from_name get_hook_name_from_id
         (Some s) id1 name1 m = Done (Some (n_loc A)) m1 ∧
       add_list_item get_hook_id_from_name get_hook_name_from_id
         (Some s) id2 name2 m1 = Done (Some (n_loc B)) m2 ∧
       add_list_item get_hook_id_from_name get_hook_name_from_id
         (Some s) id3 name3 m2 = Done (Some (n_loc C)) m3 ∧
       carries A k1 nm1 ∧ carries B k2 nm2 ∧ carries C k3 nm3 ∧
       list_inv (heap m3) s ty (ns ++ [A; B; C]) ∧
       traverse s m3 = Done (node_items (ns ++ [A; B; C])) m3).
Proof.
  intros Hinv. split_and!.
  - pose proof Hinv as (st & Hs & _).
    destruct (list_inv_head_tail _ _ _ _ _ Hinv Hs) as (H1 & H2 & H3).
    exists st. split_and!; try done; [by eapply traverse_inv| |].
    + intros a. by eapply append_item_writes.
    + intros a.
      destruct (append_item_counted_cost m s ty ns a Hinv)
        as (n & m' & Hc & Hp & ->).
      eexists _, m'. split; [exact Hc|]. split; [exact Hp|].
      case_decide; lia.
  - by apply add_list_item_step.
  - intros id1 name1 id2 name2 id3 name3 rA rB rC m1 m2 m3 HA HB HC NA NB NC.
    destruct (add_list_item_new _ _ _ _ _ _ _ _ _ _ Hinv HA NA)
      as (A & <- & HinvA).
    destruct (add_list_item_new _ _ _ _ _ _ _ _ _ _ HinvA HB NB)
      as (B & <- & HinvB).
    destruct (add_list_item_new _ _ _ _ _ _ _ _ _ _ HinvB HC NC)
      as (C & <- & HinvC).
    rewrite <- !app_assoc in HinvC. simpl in HinvC.
    exists A, B, C. split_and!; try done. by eapply traverse_inv.
  - intros k nm He Habs. by eapply add_list_item_appends_request.
  - intros id1 name1 id2 name2 id3 name3 k1 nm1 k2 nm2 k3 nm3
      E1 E2 E3 N1 N2 N3 D12 D13 D23.
    destruct (add_list_item_appends_request _ _ _ _ _ _ _ _ _ _ Hinv E1 N1)
      as (A & h1 & HA & CA & _ & HinvA).
    destruct (add_list_item_appends_request _ _ (mk_mem h1 (freed m))
                _ _ _ _ _ _ _ HinvA E2)
      as (B & h2 & HB & CB & _ & HinvB).
    { by eapply not_in_list_snoc. }
    destruct (add_list_item_appends_request _ _ (mk_mem h2 (freed m))
                _ _ _ _ _ _ _ HinvB E3)
      as (C & h3 & HC & CC & _ & HinvC).
    { eapply not_in_list_snoc; [|done|done]. by eapply not_in_list_snoc. }
    rewrite <- !app_assoc in HinvC. simpl in HinvC.
    simpl in HB, HC.
    eexists A, B, C, _, _, _. split; [exact HA|]. split; [exact HB|].
    split; [exact HC|]. split_and!; try done. by eapply traverse_inv.
Qed.

Lemma insertion_preserves_list_and_order_witness :
  ∃ A B C m1 m2 m3,
    add_list_item demo_hook_id demo_hook_name (Some 2%positive) 2 None
      hook_empty_mem = Done (Some (n_loc A)) m1 ∧
    add_list_item demo_hook_id demo_hook_name (Some 2%positive) 0
      (Some (wide "WH_MOUSE")) m1 = Done (Some (n_loc B)) m2 ∧
    add_list_item demo_hook_id demo_hook_name (Some 2%positive) 99 None
      m2 = Done (Some (n_loc C)) m3 ∧
    carries A 2 (Some (wide "WH_KEYBOARD")) ∧
    carries B 7 (Some (wide "WH_MOUSE")) ∧
    carries C 99 None ∧
    list_inv (heap m3) 2%positive LIST_INCLUDE_HOOK [A; B; C] ∧
    traverse 2%positive m3 = Done (node_items [A; B; C]) m3.
Proof.
  destruct (insertion_preserves_list_and_order demo_hook_id demo_hook_name
              hook_empty_mem 2%positive LIST_INCLUDE_HOOK [] 0 None
              hook_empty_mem_inv) as (_ & _ & _ & _ & H).
  apply (H 2 None 0 (Some (wide "WH_MOUSE")) 99 None
           2 (Some (wide "WH_KEYBOARD")) 7 (Some (wide "WH_MOUSE")) 99 None).
  - reflexivity.
  - reflexivity.
  - reflexivity.
  - intros x n Hx. by apply elem_of_nil in Hx.
  - intros x n Hx. by apply elem_of_nil in Hx.
  - intros x n Hx. by apply elem_of_nil in Hx.
  - intros a b [Ha _] [Hb _]. simpl. lia.
  - intros a b [Ha _] [Hb _]. simpl. lia.
  - intros a b [Ha _] [Hb _]. simpl. lia.
Defined.
